(** * Vocal-Processor: the smooth real-time audio processor

    A shallow embedding of [smooth_processor.py] (class [SmoothAudioProcessor])
    and the proofs of its specified properties.

    Numbers are modelled as the program has them:
    - a Python [float] is an IEEE 754 binary64 value, Rocq's primitive [float];
    - an element of an audio block is a NumPy [float32] (the two streams are
      opened with [dtype=np.float32]), an IEEE 754 binary32 value, computed
      with the Standard Library's executable specification [spec_float] at
      precision 24 and maximal exponent 128;
    - a Python [float] meeting a [float32] array is first rounded to
      [float32], and the operation is done in [float32] (NumPy's promotion
      of a Python scalar with an array of the same kind).

    Effects are modelled by one small monad: the processor object is threaded
    as state, a Python exception is an outcome, and a log records lock
    events, parameter accesses, NumPy operations and console output in
    program order.  Each modelled call runs to completion before the next:
    the interleaving of the three threads is not modelled.

    Modelled: [__init__], [process_audio], [input_callback],
    [output_callback], [display_controls], [keyboard_listener], the
    pre-fill of [start_processing], and the choice of the input and output
    devices in [main].  Not modelled: the device listing
    ([list_audio_devices]), the console output and the sample rate
    assignment of [main], and the opening of the streams, which are calls
    into the audio runtime. *)

From Stdlib Require Import Ascii String.
From Stdlib Require Import ZArith List Bool Lia Floats.
Import ListNotations.

Set Warnings "-inexact-float".

(* ================================================================== *)
(** * Python floats (binary64) *)

Module Py.

(** Built-in [max(a, b)]: start from [a], take [b] if [b > a]. *)
Definition max (a b : float) : float := if (a <? b)%float then b else a.

(** Built-in [min(a, b)]: start from [a], take [b] if [b < a]. *)
Definition min (a b : float) : float := if (b <? a)%float then b else a.

End Py.

(* ================================================================== *)
(** * NumPy float32 scalars *)

Definition f32 : Type := spec_float.

Definition prec32 : Z := 24.
Definition emax32 : Z := 128.

(** Conversion of a Python float to [np.float32]: round to nearest even. *)
Definition f32_of_float (x : float) : f32 :=
  match Prim2SF x with
  | S754_finite s m e => binary_round prec32 emax32 s m e
  | v => v
  end.

Definition f32_add : f32 -> f32 -> f32 := SFadd prec32 emax32.
Definition f32_sub : f32 -> f32 -> f32 := SFsub prec32 emax32.
Definition f32_mul : f32 -> f32 -> f32 := SFmul prec32 emax32.
Definition f32_div : f32 -> f32 -> f32 := SFdiv prec32 emax32.

Definition f32_zero : f32 := S754_zero false.

Definition f32_is_nan (x : f32) : bool :=
  match x with S754_nan => true | _ => false end.

(** [np.maximum] and [np.minimum] on one element: the larger (smaller)
    operand, and a NaN operand wins (the first one if both are NaN). *)
Definition f32_maximum (a b : f32) : f32 :=
  if f32_is_nan a || SFleb b a then a else b.

Definition f32_minimum (a b : f32) : f32 :=
  if f32_is_nan a || SFleb a b then a else b.

(** [np.clip(x, lo, hi)] on one element, by NumPy's documented equation
    [np.minimum(a_max, np.maximum(a, a_min))]. *)
Definition f32_clip (x lo hi : f32) : f32 :=
  f32_minimum hi (f32_maximum x lo).

(** [lo <= x <= hi] as float32 comparisons (false on NaN). *)
Definition f32_between (lo hi x : f32) : bool := SFleb lo x && SFleb x hi.

(* ================================================================== *)
(** * NumPy arrays of float32 *)

(** A 1-D array. *)
Definition vec : Type := list f32.

(** A 2-D array of shape [(length rows, ncols)]: one row per frame, one
    column per channel.  Every row of an array has [ncols] elements
    ([matrix_wf]); NumPy has no other 2-D arrays. *)
Record matrix : Type := { ncols : nat; rows : list vec }.

Definition matrix_wf (a : matrix) : Prop :=
  Forall (fun r => length r = ncols a) (rows a).

(** The blocks that reach [process_audio]: its first test distinguishes
    [len(audio_data.shape) < 2] from the 2-D case. *)
Inductive ndarray : Type :=
| Arr1 (v : vec)
| Arr2 (a : matrix).

Definition shape (a : ndarray) : list nat :=
  match a with
  | Arr1 v => [length v]
  | Arr2 m => [length (rows m); ncols m]
  end.

(** [a.copy()]: a fresh array with the same contents. *)
Definition np_copy (a : ndarray) : ndarray := a.

(** Element of a row; rows of a well-formed matrix are never read outside
    their length. *)
Definition row_get (j : nat) (r : vec) : f32 := nth j r f32_zero.

(** [np.zeros((n, c), dtype=np.float32)]. *)
Definition np_zeros (n c : nat) : matrix :=
  {| ncols := c; rows := repeat (repeat f32_zero c) n |}.

(** [a.fill(x)]: every element replaced, the shape kept. *)
Definition np_fill (a : matrix) (x : f32) : matrix :=
  {| ncols := ncols a; rows := map (fun _ => repeat x (ncols a)) (rows a) |}.

(** Element-wise binary operation of two 1-D arrays with NumPy's
    broadcasting: equal lengths, or one operand of length 1. *)
Definition broadcast2 (f : f32 -> f32 -> f32) (u v : vec) : option vec :=
  if (length u =? length v)%nat then Some (map (fun xy => f (fst xy) (snd xy)) (combine u v))
  else match u, v with
       | [x], _ => Some (map (fun y => f x y) v)
       | _, [y] => Some (map (fun x => f x y) u)
       | _, _ => None
       end.

(* ================================================================== *)
(** * Effects: state, exceptions, log *)

Inductive exn : Type :=
| IndexError
| ValueError
| UnicodeDecodeError
| QueueFull
| QueueEmpty.

(** How a call ends: it returns, raises, or waits forever (a blocking queue
    operation that nothing will ever release in a sequential run). *)
Inductive outcome (A : Type) : Type :=
| Ok (a : A)
| Raise (e : exn)
| Blocks.

Arguments Ok {A} a.
Arguments Raise {A} e.
Arguments Blocks {A}.

Inductive param : Type := CenterAttenuation | VocalRemovalMix | MasterVolume.

Inductive np_op : Type :=
| OpSub | OpAdd | OpMul | OpDiv | OpClip | OpColumnStack | OpAssign | OpFill.

Inductive message : Type :=
| MsgInputStatus
| MsgOutputStatus
| MsgProcessingError (e : exn)
| MsgPercent (label : string) (value : float)
| MsgText (text : string)
| MsgControlsHeader
| MsgControlsHelp.

Inductive event : Type :=
| Acquire                      (* [param_lock] taken *)
| Release                      (* [param_lock] released *)
| ReadParam (p : param)
| WriteParam (p : param)
| Compute (op : np_op)         (* a NumPy operation over a whole block *)
| Print (m : message).

(** [queue.Queue]: [maxsize = 0] means unbounded. *)
Record Queue : Type := { maxsize : nat; items : list matrix }.

(** The attributes of a [SmoothAudioProcessor].  [param_lock] has no field:
    every modelled call runs to completion before the next one starts, so
    the lock is free at every call and its use is recorded in the log. *)
Record processor : Type := {
  sample_rate : Z;
  block_size : nat;
  is_running : bool;
  center_attenuation : float;
  vocal_removal_mix : float;
  master_volume : float;
  audio_queue : Queue
}.

Definition M (A : Type) : Type := processor -> outcome A * processor * list event.

Definition ret {A} (a : A) : M A := fun s => (Ok a, s, []).

Definition bind {A B} (c : M A) (k : A -> M B) : M B :=
  fun s =>
    match c s with
    | (Ok a, s1, t1) => let '(r, s2, t2) := k a s1 in (r, s2, t1 ++ t2)
    | (Raise e, s1, t1) => (Raise e, s1, t1)
    | (Blocks, s1, t1) => (Blocks, s1, t1)
    end.

Notation "x <- c ;; k" := (bind c (fun x => k))
  (at level 61, c at next level, right associativity).
Notation "c ;; k" := (bind c (fun _ => k))
  (at level 61, right associativity).

Definition raise {A} (e : exn) : M A := fun s => (Raise e, s, []).
Definition emit (ev : event) : M unit := fun s => (Ok tt, s, [ev]).
Definition get_self : M processor := fun s => (Ok s, s, []).

Definition outcome_of {A} (x : outcome A * processor * list event) : outcome A := fst (fst x).
Definition state_of {A} (x : outcome A * processor * list event) : processor := snd (fst x).
Definition log_of {A} (x : outcome A * processor * list event) : list event := snd x.

(** [try: body except <catches>: handler]. *)
Definition try_except {A} (body : M A) (catches : exn -> bool) (handler : exn -> M A) : M A :=
  fun s =>
    match body s with
    | (Raise e, s1, t1) =>
        if catches e then let '(r, s2, t2) := handler e s1 in (r, s2, t1 ++ t2)
        else (Raise e, s1, t1)
    | r => r
    end.

(** [with self.param_lock: body]: the lock is released when the body
    returns or raises. *)
Definition with_lock {A} (body : M A) : M A :=
  fun s =>
    match body s with
    | (Blocks, s1, t1) => (Blocks, s1, Acquire :: t1)
    | (r, s1, t1) => (r, s1, Acquire :: t1 ++ [Release])
    end.

(** [for x in xs: body x]. *)
Fixpoint for_each {A} (xs : list A) (body : A -> M unit) : M unit :=
  match xs with
  | [] => ret tt
  | x :: xs' => body x ;; for_each xs' body
  end.

Definition print (m : message) : M unit := emit (Print m).

(* ================================================================== *)
(** * NumPy operations as used by the processor *)

(** [a[:, j]]: column [j] of a 2-D array, [IndexError] outside its columns. *)
Definition np_column (a : matrix) (j : nat) : M vec :=
  if (j <? ncols a)%nat then ret (map (row_get j) (rows a)) else raise IndexError.

Definition np_elementwise (op : np_op) (f : f32 -> f32 -> f32) (u v : vec) : M vec :=
  match broadcast2 f u v with
  | Some w => emit (Compute op) ;; ret w
  | None => raise ValueError
  end.

(** [u - v] and [u + v]. *)
Definition np_sub : vec -> vec -> M vec := np_elementwise OpSub f32_sub.
Definition np_add : vec -> vec -> M vec := np_elementwise OpAdd f32_add.

(** [u * x] and [u / x] for a Python float [x]. *)
Definition np_mul_scalar (u : vec) (x : float) : M vec :=
  emit (Compute OpMul) ;; ret (map (fun a => f32_mul a (f32_of_float x)) u).

Definition np_div_scalar (u : vec) (x : float) : M vec :=
  emit (Compute OpDiv) ;; ret (map (fun a => f32_div a (f32_of_float x)) u).

(** [np.clip(u, lo, hi)]. *)
Definition np_clip (u : vec) (lo hi : float) : M vec :=
  emit (Compute OpClip) ;;
  ret (map (fun a => f32_clip a (f32_of_float lo) (f32_of_float hi)) u).

(** [np.column_stack([u, v])] of two 1-D arrays: they become the two
    columns; [ValueError] when their lengths differ. *)
Definition np_column_stack (u v : vec) : M matrix :=
  if (length u =? length v)%nat then
    emit (Compute OpColumnStack) ;;
    ret {| ncols := 2; rows := map (fun xy => [fst xy; snd xy]) (combine u v) |}
  else raise ValueError.

(** [out[:] = data]: [data] is broadcast to the shape of [out] (each of its
    dimensions equal to that of [out], or 1), [ValueError] otherwise. *)
Definition np_assign (out data : matrix) : M matrix :=
  let n := length (rows out) in
  let d := length (rows data) in
  if ((d =? n)%nat || (d =? 1)%nat) && ((ncols data =? ncols out)%nat || (ncols data =? 1)%nat)
  then
    emit (Compute OpAssign) ;;
    ret {| ncols := ncols out;
           rows := map (fun i =>
                          let r := nth (if (d =? n)%nat then i else 0%nat) (rows data) [] in
                          if (ncols data =? ncols out)%nat then r
                          else repeat (row_get 0 r) (ncols out))
                       (seq 0 n) |}
  else raise ValueError.

(* ================================================================== *)
(** * queue.Queue *)

Definition queue_full (q : Queue) : bool :=
  (0 <? maxsize q)%nat && (maxsize q <=? length (items q))%nat.

Definition queue_append (q : Queue) (x : matrix) : Queue :=
  {| maxsize := maxsize q; items := items q ++ [x] |}.

Definition with_audio_queue (s : processor) (q : Queue) : processor :=
  {| sample_rate := sample_rate s; block_size := block_size s;
     is_running := is_running s;
     center_attenuation := center_attenuation s;
     vocal_removal_mix := vocal_removal_mix s;
     master_volume := master_volume s;
     audio_queue := q |}.

(** [self.audio_queue.put_nowait(x)]: raises [queue.Full] on a full queue. *)
Definition put_nowait (x : matrix) : M unit :=
  fun s =>
    if queue_full (audio_queue s) then (Raise QueueFull, s, [])
    else (Ok tt, with_audio_queue s (queue_append (audio_queue s) x), []).

(** [self.audio_queue.put(x)]: waits on a full queue. *)
Definition put (x : matrix) : M unit :=
  fun s =>
    if queue_full (audio_queue s) then (Blocks, s, [])
    else (Ok tt, with_audio_queue s (queue_append (audio_queue s) x), []).

(** [self.audio_queue.get_nowait()]: the oldest item, [queue.Empty] on an
    empty queue. *)
Definition get_nowait : M matrix :=
  fun s =>
    match items (audio_queue s) with
    | [] => (Raise QueueEmpty, s, [])
    | x :: rest =>
        (Ok x, with_audio_queue s {| maxsize := maxsize (audio_queue s); items := rest |}, [])
    end.

(* ================================================================== *)
(** * SmoothAudioProcessor *)

(** [__init__(self, sample_rate=44100, block_size=2048)]. *)
Definition SmoothAudioProcessor (sample_rate : Z) (block_size : nat) : processor :=
  {| sample_rate := sample_rate;
     block_size := block_size;
     is_running := false;
     center_attenuation := 0.6;
     vocal_removal_mix := 1.0;
     master_volume := 1.0;
     audio_queue := {| maxsize := 20; items := [] |} |}.

Definition get_param (p : param) : M float :=
  fun s =>
    (Ok match p with
        | CenterAttenuation => center_attenuation s
        | VocalRemovalMix => vocal_removal_mix s
        | MasterVolume => master_volume s
        end, s, [ReadParam p]).

Definition set_param (p : param) (x : float) : M unit :=
  fun s =>
    (Ok tt,
     {| sample_rate := sample_rate s; block_size := block_size s;
        is_running := is_running s;
        center_attenuation :=
          match p with CenterAttenuation => x | _ => center_attenuation s end;
        vocal_removal_mix :=
          match p with VocalRemovalMix => x | _ => vocal_removal_mix s end;
        master_volume :=
          match p with MasterVolume => x | _ => master_volume s end;
        audio_queue := audio_queue s |},
     [WriteParam p]).

Definition get_is_running : M bool := fun s => (Ok (is_running s), s, []).

Definition set_is_running (b : bool) : M unit :=
  fun s =>
    (Ok tt,
     {| sample_rate := sample_rate s; block_size := block_size s;
        is_running := b;
        center_attenuation := center_attenuation s;
        vocal_removal_mix := vocal_removal_mix s;
        master_volume := master_volume s;
        audio_queue := audio_queue s |},
     []).

(** [process_audio(self, audio_data)]. *)
Definition process_audio (audio_data : ndarray) : M matrix :=
  match audio_data with
  | Arr1 v =>
      (* len(audio_data.shape) < 2: mono = audio_data *)
      np_column_stack v v
  | Arr2 a =>
      if (ncols a <? 2)%nat then
        (* audio_data.shape[1] < 2: mono = audio_data[:, 0] *)
        mono <- np_column a 0 ;;
        np_column_stack mono mono
      else
        left <- np_column a 0 ;;
        right <- np_column a 1 ;;
        mixed <- with_lock (
          diff <- np_sub left right ;;
          vrm <- get_param VocalRemovalMix ;;
          vocal_removed <- np_mul_scalar diff vrm ;;
          sum <- np_add left right ;;
          half <- np_div_scalar sum 2.0 ;;
          ca <- get_param CenterAttenuation ;;
          center <- np_mul_scalar half ca ;;
          mixed <- np_add vocal_removed center ;;
          mv <- get_param MasterVolume ;;
          np_mul_scalar mixed mv) ;;
        mixed <- np_clip mixed (-1.0) 1.0 ;;
        np_column_stack mixed mixed
  end.

(** The inner [try] of [input_callback]:
    [put_nowait(processed)], a full queue drops the block. *)
Definition enqueue_or_drop (processed : matrix) : M unit :=
  try_except (put_nowait processed)
             (fun e => match e with QueueFull => true | _ => false end)
             (fun _ => ret tt).

(** [input_callback(self, indata, frames, time, status)]. *)
Definition input_callback (indata : ndarray) (frames : nat) (time : Z) (status : bool) : M unit :=
  (if status then print MsgInputStatus else ret tt) ;;
  try_except
    (processed <- process_audio (np_copy indata) ;;
     enqueue_or_drop processed)
    (fun _ => true)
    (fun e => print (MsgProcessingError e)).

(** [output_callback(self, outdata, frames, time, status)]; the result is
    the contents of [outdata] when the callback returns. *)
Definition output_callback (outdata : matrix) (frames : nat) (time : Z) (status : bool) : M matrix :=
  (if status then print MsgOutputStatus else ret tt) ;;
  try_except
    (data <- get_nowait ;;
     np_assign outdata data)
    (fun e => match e with QueueEmpty => true | _ => false end)
    (fun _ => emit (Compute OpFill) ;; ret (np_fill outdata f32_zero)).

(** [display_controls(self)]: the banner, the three settings as
    percentages, the key help. *)
Definition display_controls : M unit :=
  print MsgControlsHeader ;;
  ca <- get_param CenterAttenuation ;;
  print (MsgPercent "Center Attenuation" (ca * 100)) ;;
  vrm <- get_param VocalRemovalMix ;;
  print (MsgPercent "Vocal Removal Mix" (vrm * 100)) ;;
  mv <- get_param MasterVolume ;;
  print (MsgPercent "Master Volume" (mv * 100)) ;;
  print MsgControlsHelp.

Inductive loop_ctl : Type := Continue | Break.

(** [bytes.decode('utf-8')] of the single byte [msvcrt.getch()] returns. *)
Definition decode_utf8 (b : ascii) : M ascii :=
  if (nat_of_ascii b <? 128)%nat then ret b else raise UnicodeDecodeError.

(** [str.lower()] of one ASCII character. *)
Definition lower (c : ascii) : ascii :=
  let n := nat_of_ascii c in
  if (65 <=? n)%nat && (n <=? 90)%nat then ascii_of_nat (n + 32) else c.

(** The [with self.param_lock:] block of [keyboard_listener], for the
    value of [key]. *)
Definition handle_key (key : ascii) : M loop_ctl :=
  with_lock (
    if (key =? "1")%char then
      ca <- get_param CenterAttenuation ;;
      set_param CenterAttenuation (Py.max 0.0 (ca - 0.05)) ;;
      ca <- get_param CenterAttenuation ;;
      print (MsgPercent "Center Attenuation" (ca * 100)) ;;
      ret Continue
    else if (key =? "2")%char then
      ca <- get_param CenterAttenuation ;;
      set_param CenterAttenuation (Py.min 1.0 (ca + 0.05)) ;;
      ca <- get_param CenterAttenuation ;;
      print (MsgPercent "Center Attenuation" (ca * 100)) ;;
      ret Continue
    else if (key =? "3")%char then
      vrm <- get_param VocalRemovalMix ;;
      set_param VocalRemovalMix (Py.max 0.0 (vrm - 0.1)) ;;
      vrm <- get_param VocalRemovalMix ;;
      print (MsgPercent "Vocal Removal Mix" (vrm * 100)) ;;
      ret Continue
    else if (key =? "4")%char then
      vrm <- get_param VocalRemovalMix ;;
      set_param VocalRemovalMix (Py.min 1.0 (vrm + 0.1)) ;;
      vrm <- get_param VocalRemovalMix ;;
      print (MsgPercent "Vocal Removal Mix" (vrm * 100)) ;;
      ret Continue
    else if (key =? "5")%char then
      mv <- get_param MasterVolume ;;
      set_param MasterVolume (Py.max 0.0 (mv - 0.05)) ;;
      mv <- get_param MasterVolume ;;
      print (MsgPercent "Master Volume" (mv * 100)) ;;
      ret Continue
    else if (key =? "6")%char then
      mv <- get_param MasterVolume ;;
      set_param MasterVolume (Py.min 1.5 (mv + 0.05)) ;;
      mv <- get_param MasterVolume ;;
      print (MsgPercent "Master Volume" (mv * 100)) ;;
      ret Continue
    else if (key =? "r")%char then
      set_param CenterAttenuation 0.6 ;;
      set_param VocalRemovalMix 1.0 ;;
      set_param MasterVolume 1.0 ;;
      print (MsgText "Settings reset to defaults") ;;
      display_controls ;;
      ret Continue
    else if (key =? "q")%char then
      print (MsgText "Stopping...") ;;
      set_is_running false ;;
      ret Break
    else ret Continue).

(** One iteration of the loop with a key waiting:
    [key = msvcrt.getch().decode('utf-8').lower()], then the locked block. *)
Definition key_press (b : ascii) : M loop_ctl :=
  c <- decode_utf8 b ;;
  handle_key (lower c).

(** [keyboard_listener(self)], run over the successive answers of
    [msvcrt.kbhit()]: [None] when no key waits, [Some b] for the byte that
    [getch] then returns.  The loop is left by [q], by [is_running] being
    false, or here when the answers are used up. *)
Fixpoint keyboard_listener (polls : list (option ascii)) : M unit :=
  match polls with
  | [] => ret tt
  | poll :: rest =>
      running <- get_is_running ;;
      if running then
        match poll with
        | None => keyboard_listener rest
        | Some b =>
            ctl <- key_press b ;;
            match ctl with
            | Break => ret tt
            | Continue => keyboard_listener rest
            end
        end
      else ret tt
  end.

(** The start of [start_processing], up to the opening of the streams:
    the controls are shown, [is_running] is set, and the queue is
    pre-filled with ten blocks of silence by the blocking [put]. *)
Definition start_processing_prologue : M unit :=
  display_controls ;;
  set_is_running true ;;
  s <- get_self ;;
  let silence := np_zeros (block_size s) 2 in
  for_each (seq 0 10) (fun _ => put silence).

(** The audio runtime calling a callback once per block, in order. *)
Fixpoint call_each {A B} (f : A -> M B) (xs : list A) : M (list B) :=
  match xs with
  | [] => ret []
  | x :: xs' => y <- f x ;; ys <- call_each f xs' ;; ret (y :: ys)
  end.

(* ================================================================== *)
(** * Vocabulary of the specification *)

(** The linear mix of one frame before the limiter:
    [((L - R) * vocalRemovalMix + ((L + R) / 2) * centerAttenuation) * masterVolume]. *)
Definition raw_mix (s : processor) (L R : f32) : f32 :=
  f32_mul
    (f32_add
       (f32_mul (f32_sub L R) (f32_of_float (vocal_removal_mix s)))
       (f32_mul (f32_div (f32_add L R) (f32_of_float 2.0))
                (f32_of_float (center_attenuation s))))
    (f32_of_float (master_volume s)).

(** The mix of one frame: [clamp(raw mix, -1.0, 1.0)]. *)
Definition mix_formula (s : processor) (L R : f32) : f32 :=
  f32_clip (raw_mix s L R) (f32_of_float (-1.0)) (f32_of_float 1.0).

(** A sample in the closed interval [[-1.0, 1.0]]. *)
Definition within_unit (x : f32) : bool :=
  f32_between (f32_of_float (-1.0)) (f32_of_float 1.0) x.

Definition samples_within_unit (a : matrix) : bool :=
  forallb (forallb within_unit) (rows a).

(** Silence: every sample is [0.0]. *)
Definition all_zero (a : matrix) : Prop :=
  Forall (Forall (fun x => x = f32_zero)) (rows a).

(** [b] is an array of the shape of [a]. *)
Definition same_shape (a b : matrix) : Prop :=
  ncols a = ncols b /\ length (rows a) = length (rows b) /\ matrix_wf b.

(** The ranges of the three mix parameters:
    [centerAttenuation] and [vocalRemovalMix] in [[0.0, 1.0]],
    [masterVolume] in [[0.0, 1.5]]. *)
Definition in_closed_range (hi x : float) : bool :=
  ((0 <=? x) && (x <=? hi))%float.

Definition params_in_range (s : processor) : bool :=
  in_closed_range 1.0 (center_attenuation s) &&
  in_closed_range 1.0 (vocal_removal_mix s) &&
  in_closed_range 1.5 (master_volume s).

(** Clamping, in the specification's words: a stepped value that stays
    above the lower bound [0.0] (below the upper bound [hi]) is kept as it
    is, any other is replaced by the bound. *)
Definition clamp_low (y : float) : float :=
  (if 0 <? y then y else 0)%float.

Definition clamp_high (hi y : float) : float :=
  (if y <? hi then y else hi)%float.

(** The parameters [(centerAttenuation, vocalRemovalMix, masterVolume)] a
    key press is specified to leave: the step of the key applied to its own
    parameter and clamped, the defaults for the reset key, no change for
    any other key. *)
Definition key_effect (key : ascii) (p : float * float * float) : float * float * float :=
  let '(ca, vrm, mv) := p in
  if (key =? "1")%char then (clamp_low (ca - 0.05), vrm, mv)
  else if (key =? "2")%char then (clamp_high 1.0 (ca + 0.05), vrm, mv)
  else if (key =? "3")%char then (ca, clamp_low (vrm - 0.1), mv)
  else if (key =? "4")%char then (ca, clamp_high 1.0 (vrm + 0.1), mv)
  else if (key =? "5")%char then (ca, vrm, clamp_low (mv - 0.05))
  else if (key =? "6")%char then (ca, vrm, clamp_high 1.5 (mv + 0.05))
  else if (key =? "r")%char then (0.6, 1.0, 1.0)%float
  else (ca, vrm, mv).

(** No NumPy operation is logged between an [Acquire] and its [Release]. *)
Fixpoint no_compute_while_locked (held : bool) (t : list event) : bool :=
  match t with
  | [] => true
  | Acquire :: t' => no_compute_while_locked true t'
  | Release :: t' => no_compute_while_locked false t'
  | Compute _ :: t' => negb held && no_compute_while_locked held t'
  | _ :: t' => no_compute_while_locked held t'
  end.

(** Whether the lock is held after the events of [t]. *)
Fixpoint lock_held_after (held : bool) (t : list event) : bool :=
  match t with
  | [] => held
  | Acquire :: t' => lock_held_after true t'
  | Release :: t' => lock_held_after false t'
  | _ :: t' => lock_held_after held t'
  end.

(** What [process_audio] does under the lock on a block of two or more
    channels. *)
Definition locked_mix_log : list event :=
  [Compute OpSub; ReadParam VocalRemovalMix; Compute OpMul;
   Compute OpAdd; Compute OpDiv; ReadParam CenterAttenuation; Compute OpMul;
   Compute OpAdd; ReadParam MasterVolume; Compute OpMul].

(** The keys [keyboard_listener] acts on, after [lower]. *)
Definition is_recognized (key : ascii) : bool :=
  existsb (Ascii.eqb key) ["1"; "2"; "3"; "4"; "5"; "6"; "r"; "q"]%char.

(** A call with its four arguments, as the audio runtime makes it. *)
Definition call_output (c : matrix * nat * Z * bool) : M matrix :=
  let '(outdata, frames, time, status) := c in
  output_callback outdata frames time status.

Definition outdata_of (c : matrix * nat * Z * bool) : matrix := fst (fst (fst c)).

(** A rounded value has the sign it was given, or is NaN. *)
Definition has_sign (s : bool) (x : spec_float) : Prop :=
  match x with
  | S754_zero s' | S754_infinity s' | S754_finite s' _ _ => s' = s
  | S754_nan => True
  end.

(** The channel count [process_audio] tests: a 1-D block is one channel. *)
Definition channels (audio_data : ndarray) : nat :=
  match audio_data with
  | Arr1 _ => 1
  | Arr2 a => ncols a
  end.

(** The samples of a block of exactly one channel. *)
Definition mono_input (audio_data : ndarray) : option vec :=
  match audio_data with
  | Arr1 v => Some v
  | Arr2 a => if (ncols a =? 1)%nat then Some (map (row_get 0) (rows a)) else None
  end.

(** The three mix parameters: [(centerAttenuation, vocalRemovalMix,
    masterVolume)]. *)
Definition params_of (s : processor) : float * float * float :=
  (center_attenuation s, vocal_removal_mix s, master_volume s).

(** Some concrete values for the examples. *)
Definition default_processor : processor := SmoothAudioProcessor 44100 2048.

Definition stereo_frame (l r : float) : ndarray :=
  Arr2 {| ncols := 2; rows := [[f32_of_float l; f32_of_float r]] |}.

Definition zero_channel_block : ndarray := Arr2 {| ncols := 0; rows := [[]] |}.

Definition with_is_running (b : bool) (s : processor) : processor :=
  {| sample_rate := sample_rate s; block_size := block_size s;
     is_running := b;
     center_attenuation := center_attenuation s;
     vocal_removal_mix := vocal_removal_mix s;
     master_volume := master_volume s;
     audio_queue := audio_queue s |}.

Definition with_params (ca vrm mv : float) (s : processor) : processor :=
  {| sample_rate := sample_rate s; block_size := block_size s;
     is_running := is_running s;
     center_attenuation := ca; vocal_removal_mix := vrm; master_volume := mv;
     audio_queue := audio_queue s |}.

(* ================================================================== *)
(** * Further vocabulary: shapes, sessions, the lock *)

(** The number of frames of a block. *)
Definition frames_of (audio_data : ndarray) : nat :=
  match audio_data with
  | Arr1 v => length v
  | Arr2 a => length (rows a)
  end.

(** [data] has the shape of the output buffer [out]. *)
Definition fits (out data : matrix) : Prop :=
  ncols data = ncols out /\ length (rows data) = length (rows out).

(** Two processors that differ at most in the blocks their queue holds. *)
Definition same_but_items (s s' : processor) : Prop :=
  sample_rate s' = sample_rate s /\
  block_size s' = block_size s /\
  is_running s' = is_running s /\
  params_of s' = params_of s /\
  maxsize (audio_queue s') = maxsize (audio_queue s).

(** One completed call on the processor, by any of its threads: the audio
    runtime calling a callback, the listener taking one answer of
    [kbhit], or the start of [start_processing]. *)
Inductive call : Type :=
| CallInput (indata : ndarray) (frames : nat) (time : Z) (status : bool)
| CallOutput (outdata : matrix) (frames : nat) (time : Z) (status : bool)
| CallKey (poll : option ascii)
| CallPrologue.

(** The processor after a call, however the call ended. *)
Definition state_after (s : processor) (c : call) : processor :=
  match c with
  | CallInput indata frames time status =>
      state_of (input_callback indata frames time status s)
  | CallOutput outdata frames time status =>
      state_of (output_callback outdata frames time status s)
  | CallKey poll => state_of (keyboard_listener [poll] s)
  | CallPrologue => state_of (start_processing_prologue s)
  end.

(** The processor after a sequence of calls. *)
Definition session (calls : list call) (s : processor) : processor :=
  fold_left state_after calls s.

(** The events selected by [sel] are logged only between an [Acquire] and
    its [Release]. *)
Fixpoint only_while_locked (sel : event -> bool) (held : bool) (t : list event) : bool :=
  match t with
  | [] => true
  | Acquire :: t' => only_while_locked sel true t'
  | Release :: t' => only_while_locked sel false t'
  | ev :: t' => (negb (sel ev) || held) && only_while_locked sel held t'
  end.

(** Parameter writes and console output. *)
Definition is_write_or_print (ev : event) : bool :=
  match ev with
  | WriteParam _ | Print _ => true
  | _ => false
  end.

Definition is_lock_event (ev : event) : bool :=
  match ev with
  | Acquire | Release => true
  | _ => false
  end.

(** What a session keeps: the parameters in range, the queue within its
    capacity [cap], the sample rate [sr] and the block size [bs]. *)
Definition session_inv (cap : nat) (sr : Z) (bs : nat) (s : processor) : Prop :=
  params_in_range s = true /\
  maxsize (audio_queue s) = cap /\
  (length (items (audio_queue s)) <= cap)%nat /\
  sample_rate s = sr /\
  block_size s = bs.

(** Every byte of the answers can be decoded (is below 128). *)
Definition all_decodable (polls : list (option ascii)) : bool :=
  forallb (fun p => match p with
                    | Some b => (nat_of_ascii b <? 128)%nat
                    | None => true
                    end) polls.

(** [x] is a zero, or a finite number smaller than [2 ^ B] in magnitude:
    a mantissa of [d] binary digits at exponent [e] is below [2 ^ (d + e)]. *)
Definition bounded_mag (B : Z) (x : spec_float) : Prop :=
  match x with
  | S754_zero _ => True
  | S754_finite _ m e => (Zpos (digits2_pos m) + e <= B)%Z
  | S754_infinity _ | S754_nan => False
  end.

(** [+0.0] or [-0.0]. *)
Definition f32_is_zero (x : f32) : bool :=
  match x with S754_zero _ => true | _ => false end.

(** A float32 value, as NumPy stores it. *)
Definition f32_valid (x : f32) : bool := SpecFloat.valid_binary prec32 emax32 x.

(** A float32 value of the conventional range of audio samples,
    [[-1.0, 1.0]]. *)
Definition unit_sample (x : f32) : bool := f32_valid x && within_unit x.

(** Every sample of the first two channels of [a] satisfies [ok]. *)
Definition stereo_samples (ok : f32 -> Prop) (a : matrix) : Prop :=
  Forall (fun r => ok (row_get 0 r) /\ ok (row_get 1 r)) (rows a).

(** A block of two channels, every row of two samples. *)
Definition stereo_block (m : matrix) : Prop :=
  ncols m = 2%nat /\ matrix_wf m.

(** A stereo block every sample of which lies in [[-1.0, 1.0]]. *)
Definition playable (m : matrix) : Prop :=
  stereo_block m /\ samples_within_unit m = true.

(** A captured block all of whose samples are float32 values of
    [[-1.0, 1.0]]. *)
Definition unit_input (audio_data : ndarray) : Prop :=
  match audio_data with
  | Arr1 v => Forall (fun x => unit_sample x = true) v
  | Arr2 a => Forall (Forall (fun x => unit_sample x = true)) (rows a)
  end.

(** The blocks the audio runtime hands to [input_callback] in a sequence
    of calls all satisfy [ok]. *)
Definition captured (ok : ndarray -> Prop) (calls : list call) : Prop :=
  Forall (fun c => match c with
                   | CallInput indata _ _ _ => ok indata
                   | _ => True
                   end) calls.

(* ================================================================== *)
(** * The choice of devices in [main] *)

(** An entry of [sd.query_devices()], with the keys the choice reads. *)
Record device : Type := {
  name : string;
  max_input_channels : Z;
  max_output_channels : Z
}.

(** [needle in hay] on strings. *)
Fixpoint str_in (needle hay : string) : bool :=
  prefix needle hay ||
  match hay with
  | EmptyString => false
  | String _ hay' => str_in needle hay'
  end.

(** [for i, dev in enumerate(devices): if cond: found = i; break], the
    enumeration counted from [i]; [None] when the loop ends without a
    [break]. *)
Fixpoint first_index (cond : device -> bool) (i : nat) (devices : list device) : option nat :=
  match devices with
  | [] => None
  | dev :: rest => if cond dev then Some i else first_index cond (S i) rest
  end.

(** [keyword in dev['name'] and dev['max_input_channels'] >= 2]. *)
Definition is_input (keyword : string) (dev : device) : bool :=
  str_in keyword (name dev) && (2 <=? max_input_channels dev)%Z.

(** The value of [input_device] when [main] starts the processing
    (lines 213-227; the console output is left out). *)
Definition auto_detect_input (devices : list device) : option nat :=
  match first_index (is_input "CABLE Output") 0 devices with
  | Some i => Some i
  | None => first_index (is_input "Stereo Mix") 0 devices
  end.

(** [dev['max_output_channels'] >= 2]. *)
Definition is_output (dev : device) : bool := (2 <=? max_output_channels dev)%Z.

(** The list [output_devices] after the loop of lines 233-237, the
    enumeration counted from [i]. *)
Fixpoint output_devices (i : nat) (devices : list device) : list nat :=
  match devices with
  | [] => []
  | dev :: rest =>
      if is_output dev then i :: output_devices (S i) rest
      else output_devices (S i) rest
  end.

(** The line the user typed, as [main] uses it: the value of
    [choice.isdigit()], and the value of [int(choice)], [None] where [int]
    raises [ValueError]. *)
Record answer : Type := { isdigit : bool; int_value : option Z }.

(** [l[n]] on a Python list: a negative index counts from the end. *)
Definition py_getitem {A} (l : list A) (n : Z) : outcome A :=
  let k := if (n <? 0)%Z then (n + Z.of_nat (length l))%Z else n in
  if (k <? 0)%Z then Raise IndexError
  else match nth_error l (Z.to_nat k) with
       | Some x => Ok x
       | None => Raise IndexError
       end.

(** The value of [output_device] when [main] starts the processing
    (lines 243-251): [isdigit] is asked first, [int] only if it holds. *)
Definition select_output (devices : list device) (choice : answer) : outcome (option nat) :=
  let outs := output_devices 0 devices in
  if isdigit choice then
    match int_value choice with
    | None => Raise ValueError
    | Some n =>
        if (n <? Z.of_nat (length outs))%Z then
          match py_getitem outs n with
          | Ok d => Ok (Some d)
          | Raise e => Raise e
          | Blocks => Blocks
          end
        else Ok None
    end
  else Ok None.

(** A device list as Windows with VB-CABLE shows it, and the answer [1]. *)
Definition example_devices : list device :=
  [ {| name := "Stereo Mix (Realtek Audio)"; max_input_channels := 2;
       max_output_channels := 0 |};
    {| name := "Speakers (Realtek Audio)"; max_input_channels := 0;
       max_output_channels := 2 |};
    {| name := "CABLE Output (VB-Audio Virtual Cable)"; max_input_channels := 8;
       max_output_channels := 0 |};
    {| name := "CABLE Input (VB-Audio Virtual Cable)"; max_input_channels := 0;
       max_output_channels := 8 |} ].

Definition example_answer : answer := {| isdigit := true; int_value := Some 1%Z |}.

(* ================================================================== *)
(** * Lists and arrays *)

Section ArrayLemmas.

Context {A B C : Type}.

Lemma combine_map_diag (g : A -> B) (h : A -> C) (l : list A) :
  combine (map g l) (map h l) = map (fun x => (g x, h x)) l.
Proof.
  induction l as [|x l IH]; cbn; [reflexivity | now rewrite IH].
Qed.

End ArrayLemmas.

Lemma broadcast2_map {A} (f : f32 -> f32 -> f32) (g h : A -> f32) (l : list A) :
  broadcast2 f (map g l) (map h l) = Some (map (fun x => f (g x) (h x)) l).
Proof.
  unfold broadcast2. rewrite !length_map, Nat.eqb_refl, combine_map_diag, map_map.
  reflexivity.
Qed.

Lemma np_elementwise_map {A} op f (g h : A -> f32) (l : list A) (s : processor) :
  np_elementwise op f (map g l) (map h l) s
  = (Ok (map (fun x => f (g x) (h x)) l), s, [Compute op]).
Proof.
  unfold np_elementwise. rewrite broadcast2_map. reflexivity.
Qed.

Lemma np_column_stack_diag (u : vec) (s : processor) :
  np_column_stack u u s
  = (Ok {| ncols := 2; rows := map (fun x => [x; x]) u |}, s, [Compute OpColumnStack]).
Proof.
  unfold np_column_stack. rewrite Nat.eqb_refl.
  replace (combine u u) with (map (fun x => (x, x)) u).
  - rewrite map_map. reflexivity.
  - rewrite <- (map_id u) at 2 3. now rewrite combine_map_diag.
Qed.

Lemma np_column_in_range (a : matrix) (j : nat) (s : processor) :
  (j < ncols a)%nat -> np_column a j s = (Ok (map (row_get j) (rows a)), s, []).
Proof.
  intros H. unfold np_column. apply Nat.ltb_lt in H. now rewrite H.
Qed.

(* ================================================================== *)
(** * process_audio *)

(** The first test of [process_audio],
    [len(audio_data.shape) < 2 or audio_data.shape[1] < 2], is the test on
    the constructor and on [ncols] by which the embedding branches. *)
Lemma mono_test_shape (audio_data : ndarray) :
  (length (shape audio_data) <? 2)%nat || (nth 1 (shape audio_data) 0 <? 2)%nat
  = (channels audio_data <? 2)%nat.
Proof. destruct audio_data as [v|a]; reflexivity. Qed.

(** The block of two or more channels: result, state and log. *)
Lemma process_audio_stereo_eq (s : processor) (a : matrix) :
  (2 <= ncols a)%nat ->
  process_audio (Arr2 a) s
  = (Ok {| ncols := 2;
           rows := map (fun r => [mix_formula s (row_get 0 r) (row_get 1 r);
                                  mix_formula s (row_get 0 r) (row_get 1 r)])
                       (rows a) |},
     s,
     Acquire :: locked_mix_log ++ [Release; Compute OpClip; Compute OpColumnStack]).
Proof.
  intros Hc. unfold process_audio.
  destruct (Nat.ltb_spec (ncols a) 2) as [Hlt|_]; [lia|].
  unfold bind at 1. rewrite np_column_in_range by lia.
  unfold bind at 1. rewrite np_column_in_range by lia.
  unfold bind at 1, with_lock, np_sub, np_add.
  unfold bind at 1. rewrite np_elementwise_map.
  cbv [bind get_param np_mul_scalar np_div_scalar emit ret np_clip].
  rewrite !map_map, np_elementwise_map.
  rewrite !map_map, np_elementwise_map.
  rewrite !map_map, np_column_stack_diag, map_map.
  reflexivity.
Qed.

(** The 1-D block and the block of one channel. *)
Lemma process_audio_1d_eq (s : processor) (v : vec) :
  process_audio (Arr1 v) s
  = (Ok {| ncols := 2; rows := map (fun x => [x; x]) v |}, s, [Compute OpColumnStack]).
Proof. apply np_column_stack_diag. Qed.

Lemma process_audio_one_channel_eq (s : processor) (a : matrix) :
  ncols a = 1%nat ->
  process_audio (Arr2 a) s
  = (Ok {| ncols := 2; rows := map (fun r => [row_get 0 r; row_get 0 r]) (rows a) |},
     s, [Compute OpColumnStack]).
Proof.
  intros Hc. unfold process_audio. rewrite Hc. cbn [Nat.ltb Nat.leb].
  unfold bind. rewrite np_column_in_range by lia.
  rewrite np_column_stack_diag, map_map. reflexivity.
Qed.

Lemma process_audio_zero_channels_eq (s : processor) (a : matrix) :
  ncols a = 0%nat -> process_audio (Arr2 a) s = (Raise IndexError, s, []).
Proof.
  intros Hc. unfold process_audio, bind, np_column. rewrite Hc. reflexivity.
Qed.

(** [process_audio] reads the processor and never changes it, never waits,
    and raises nothing but [IndexError]. *)
Lemma process_audio_cases (s : processor) (audio_data : ndarray) :
  (exists out t, process_audio audio_data s = (Ok out, s, t)) \/
  process_audio audio_data s = (Raise IndexError, s, []).
Proof.
  destruct audio_data as [v|a].
  - left. rewrite process_audio_1d_eq. eauto.
  - destruct (ncols a) as [|[|n]] eqn:Hc.
    + right. now apply process_audio_zero_channels_eq.
    + left. rewrite process_audio_one_channel_eq by assumption. eauto.
    + left. rewrite process_audio_stereo_eq by lia. eauto.
Qed.

(* ================================================================== *)
(** * Comparisons and the limiter *)

Lemma SFcompare_antisym (x y : spec_float) :
  SFcompare y x = option_map CompOpp (SFcompare x y).
Proof.
  destruct x as [sx|sx| |sx mx ex], y as [sy|sy| |sy my ey]; cbn;
    try reflexivity;
    try (destruct sx; reflexivity); try (destruct sy; reflexivity);
    try (destruct sx, sy; reflexivity).
  rewrite (Z.compare_antisym ey ex).
  pose proof (Pos.compare_cont_antisym mx my Eq) as Hm. cbn [CompOpp] in Hm.
  rewrite <- Hm.
  destruct sx, sy; try reflexivity;
    destruct (ey ?= ex)%Z; cbn; try reflexivity;
    destruct (Pos.compare_cont Eq mx my); reflexivity.
Qed.

Lemma SFcompare_not_nan (x y : spec_float) :
  f32_is_nan x = false -> f32_is_nan y = false -> exists c, SFcompare x y = Some c.
Proof.
  destruct x, y; cbn; intros; try discriminate; eauto.
Qed.

Lemma SFleb_total (x y : spec_float) :
  f32_is_nan x = false -> f32_is_nan y = false ->
  SFleb x y = false -> SFleb y x = true.
Proof.
  intros Hx Hy. unfold SFleb. rewrite (SFcompare_antisym x y).
  destruct (SFcompare_not_nan x y Hx Hy) as [c ->]. destruct c; cbn; congruence.
Qed.

Lemma SFleb_refl (x : spec_float) : f32_is_nan x = false -> SFleb x x = true.
Proof.
  destruct x as [s|s| |s m e]; cbn; intros H; try discriminate; try reflexivity.
  - destruct s; reflexivity.
  - unfold SFleb, SFcompare. rewrite Z.compare_refl.
    change (Pos.compare_cont Eq m m) with (Pos.compare m m). rewrite Pos.compare_refl.
    destruct s; reflexivity.
Qed.

(** [np.clip]: a NaN stays a NaN, anything else ends between the bounds. *)
Lemma f32_clip_spec (x lo hi : f32) :
  f32_is_nan lo = false -> f32_is_nan hi = false -> SFleb lo hi = true ->
  (f32_is_nan x = true -> f32_clip x lo hi = S754_nan) /\
  (f32_is_nan x = false -> f32_between lo hi (f32_clip x lo hi) = true).
Proof.
  intros Hlo Hhi Hle. split; intros Hx.
  - destruct x; try discriminate. unfold f32_clip, f32_maximum, f32_minimum.
    cbn [f32_is_nan orb]. rewrite Hhi. destruct hi; reflexivity.
  - unfold f32_clip, f32_maximum, f32_minimum, f32_between.
    rewrite Hx, Hhi. cbn [orb].
    destruct (SFleb lo x) eqn:H1.
    + destruct (SFleb hi x) eqn:H2.
      * now rewrite Hle, SFleb_refl.
      * now rewrite H1, (SFleb_total hi x).
    + destruct (SFleb hi lo) eqn:H2.
      * now rewrite Hle, SFleb_refl.
      * now rewrite Hle, SFleb_refl.
Qed.

Lemma mix_formula_limited (s : processor) (L R : f32) :
  (f32_is_nan (raw_mix s L R) = true -> mix_formula s L R = S754_nan) /\
  (f32_is_nan (raw_mix s L R) = false -> within_unit (mix_formula s L R) = true).
Proof. apply f32_clip_spec; reflexivity. Qed.

(* ================================================================== *)
(** * Rounding in binary64

    What the key handler needs of Python's float arithmetic: a step down
    from a value of the range stays below the upper bound, a step up stays
    above zero.  The primitive operations are linked to [spec_float] by the
    Standard Library's [FloatAxioms]; the rounding itself is followed
    through [binary_round]. *)

Section Binary64.

Local Open Scope Z_scope.

(** [digits2_pos m] is the number of binary digits of [m]. *)
Lemma digits2_pos_bounds (m : positive) :
  2 ^ (Zpos (digits2_pos m) - 1) <= Zpos m < 2 ^ Zpos (digits2_pos m).
Proof.
  induction m as [m IH | m IH |]; cbn [digits2_pos];
    [change (Z.pos m~1) with (2 * Z.pos m + 1)
    |change (Z.pos m~0) with (2 * Z.pos m)
    |cbn; lia];
    rewrite Pos2Z.inj_succ;
    replace (Z.succ (Z.pos (digits2_pos m)) - 1)
      with (Z.succ (Z.pos (digits2_pos m) - 1)) by lia;
    rewrite !Z.pow_succ_r by lia;
    revert IH;
    generalize (2 ^ (Z.pos (digits2_pos m) - 1)), (2 ^ Z.pos (digits2_pos m));
    intros; lia.
Qed.

Lemma digits2_pos_le (m : positive) (n : Z) :
  Zpos m < 2 ^ n -> Zpos (digits2_pos m) <= n.
Proof.
  intros H. destruct (Z_lt_le_dec n (Zpos (digits2_pos m))) as [Hlt|]; [|assumption].
  exfalso. pose proof (digits2_pos_bounds m) as [Hlo _].
  assert (0 <= n \/ n < 0) as [Hn|Hn] by lia.
  - assert (2 ^ n <= 2 ^ (Zpos (digits2_pos m) - 1)) by (apply Z.pow_le_mono_r; lia). lia.
  - rewrite Z.pow_neg_r in H by assumption. lia.
Qed.

(** [SpecFloat]'s iterator is [Pos.iter]. *)
Lemma iter_pos_iter {A} (f : A -> A) (p : positive) (x : A) :
  iter_pos f p x = Pos.iter f x p.
Proof.
  revert x. induction p as [p IH | p IH |]; intros x; cbn [iter_pos Pos.iter].
  - rewrite !IH. rewrite <- !Pos.iter_swap. reflexivity.
  - rewrite !IH. reflexivity.
  - reflexivity.
Qed.

(** One step of the right shift halves the mantissa and keeps the round and
    sticky bits. *)
Lemma shr_1_spec (mrs : shr_record) :
  0 <= shr_m mrs ->
  shr_m (shr_1 mrs) = shr_m mrs / 2 /\
  shr_r (shr_1 mrs) = Z.odd (shr_m mrs) /\
  shr_s (shr_1 mrs) = shr_r mrs || shr_s mrs.
Proof.
  destruct mrs as [m r s]; cbn [shr_m shr_r shr_s]. intros Hm.
  rewrite <- Z.div2_div.
  destruct m as [|[p|p|]|p]; cbn; auto; lia.
Qed.

(** [p] steps divide by [2 ^ p]; if nothing is lost the location is exact. *)
Lemma shr_iter_spec (M : Z) (p : positive) :
  0 <= M ->
  let mrs := iter_pos shr_1 p (Build_shr_record M false false) in
  shr_m mrs = M / 2 ^ Zpos p /\
  (M mod 2 ^ Zpos p = 0 -> shr_r mrs = false /\ shr_s mrs = false).
Proof.
  intros HM. cbv zeta. rewrite iter_pos_iter.
  induction p as [|p IH] using Pos.peano_ind.
  - cbn [Pos.iter]. destruct (shr_1_spec (Build_shr_record M false false) HM) as (H1 & H2 & H3).
    cbn [shr_m shr_r shr_s] in *. rewrite H1, H2, H3. split; [reflexivity|].
    intros Hmod. split; [|reflexivity].
    change (2 ^ 1) with 2 in Hmod. rewrite Zodd_mod, Hmod. reflexivity.
  - rewrite Pos.iter_succ. destruct IH as [IHm IHx].
    set (mrs := Pos.iter shr_1 _ p) in *.
    assert (Hpos : 0 <= shr_m mrs) by (rewrite IHm; apply Z.div_pos; lia).
    destruct (shr_1_spec mrs Hpos) as (H1 & H2 & H3).
    rewrite H1, H2, H3, IHm.
    rewrite Pos2Z.inj_succ, Z.pow_succ_r by lia.
    split.
    + rewrite Z.div_div by lia. f_equal. lia.
    + intros Hmod.
      set (P := 2 ^ Z.pos p) in *.
      assert (HP : 0 < P) by (apply Z.pow_pos_nonneg; lia).
      set (q := M / (2 * P)).
      assert (Hdiv : M = 2 * P * q) by (apply Z.div_exact; [lia | assumption]).
      assert (Hq : M / P = 2 * q).
      { symmetry. apply Z.div_unique_exact; [lia | rewrite Hdiv; ring]. }
      assert (Hmodp : M mod P = 0).
      { apply Z.div_exact; [lia|]. rewrite Hq. rewrite Hdiv at 1. ring. }
      destruct (IHx Hmodp) as [-> ->]. split; [|reflexivity].
      rewrite Hq, Z.odd_mul. reflexivity.
Qed.

Lemma fexp64 (e : Z) : fexp prec emax e = Z.max (e - 53) (-1074).
Proof. reflexivity. Qed.

Lemma shr_nonneg_spec (m e k : Z) :
  0 <= m -> 0 <= k ->
  exists mrs, shr (Build_shr_record m false false) e k = (mrs, e + k) /\
    shr_m mrs = m / 2 ^ k /\
    (m mod 2 ^ k = 0 -> loc_of_shr_record mrs = loc_Exact).
Proof.
  intros Hm Hk. destruct k as [|p|p]; [| |lia].
  - exists (Build_shr_record m false false). cbn [shr shr_m].
    rewrite Z.add_0_r, Z.pow_0_r, Z.div_1_r. auto.
  - pose proof (shr_iter_spec m p Hm) as [H1 H2].
    eexists; cbn [shr]; split; [reflexivity|]. split; [exact H1|].
    intros Hmod. destruct (H2 Hmod) as [Hr Hs].
    destruct (iter_pos shr_1 p _) as [m' r s]; cbn in *; subst; reflexivity.
Qed.

Lemma round_nearest_even_bounds (m : Z) (l : location) :
  m <= round_nearest_even m l <= m + 1 /\
  (l = loc_Exact -> round_nearest_even m l = m).
Proof.
  destruct l as [|[]]; cbn; try destruct (Z.even m); split; try lia; congruence || reflexivity.
Qed.

Lemma Zdigits2_le (m n : Z) : 0 <= m -> 0 <= n -> m < 2 ^ n -> Zdigits2 m <= n.
Proof.
  intros Hm Hn H. destruct m as [|p|p]; [assumption| |lia].
  cbn [Zdigits2]. apply digits2_pos_le; assumption.
Qed.

(** Rounding to nearest even is below every bound [mh * 2 ^ -52] of
    [[1, 2)] that the exact value is below: at the exponent [t] of the
    result the bound is an integer, the truncated mantissa is at most that
    integer, and it is rounded up only when it is smaller.  Values are
    compared as integer multiples of [2 ^ -1074]. *)
Lemma binary_round_aux_le_hi (mz : positive) (ez : Z) (mh : positive) :
  let t := fexp prec emax (Zpos (digits2_pos mz) + ez) in
  ez <= t -> t <= -52 -> -1074 <= ez ->
  Zpos mh < 2 ^ 53 ->
  Zpos mz * 2 ^ (ez + 1074) <= Zpos mh * 2 ^ 1022 ->
  SFleb (binary_round_aux prec emax false (Zpos mz) ez loc_Exact)
        (S754_finite false mh (-52)) = true.
Proof.
  intros t Het Ht Hez Hmh Hval.
  unfold binary_round_aux, shr_fexp. cbn [Zdigits2 shr_record_of_loc]. fold t.
  destruct (shr_nonneg_spec (Zpos mz) ez (t - ez)) as (mrs & -> & Hm1 & Hex1); [lia|lia|].
  replace (ez + (t - ez)) with t by lia.
  set (m1 := shr_m mrs) in *.
  set (m2 := round_nearest_even m1 (loc_of_shr_record mrs)).
  (* the bound at exponent t *)
  set (A := 2 ^ (ez + 1074)) in *.
  set (K := 2 ^ (t - ez)) in *.
  set (H' := Zpos mh * 2 ^ (-52 - t)).
  assert (HA : 0 < A) by (apply Z.pow_pos_nonneg; lia).
  assert (HK : 0 < K) by (apply Z.pow_pos_nonneg; lia).
  assert (HT : 2 ^ (t + 1074) = A * K).
  { unfold A, K. rewrite <- Z.pow_add_r by lia. f_equal. lia. }
  assert (H1022 : 2 ^ 1022 = 2 ^ (-52 - t) * 2 ^ (t + 1074)).
  { rewrite <- Z.pow_add_r by lia. f_equal. lia. }
  assert (Hmz : Zpos mz <= H' * K).
  { rewrite H1022, HT in Hval. unfold H'. nia. }
  assert (Hm1H : m1 <= H').
  { rewrite Hm1. apply Z.div_le_upper_bound; lia. }
  assert (Hm1pos : 0 <= m1) by (rewrite Hm1; apply Z.div_pos; lia).
  assert (Hm2 : m1 <= m2 <= H').
  { destruct (round_nearest_even_bounds m1 (loc_of_shr_record mrs)) as [Hb Hexact].
    fold m2 in Hb, Hexact. split; [lia|].
    destruct (Z.eq_dec m1 H') as [Heq|Hne]; [|lia].
    rewrite Hexact; [lia|]. apply Hex1.
    pose proof (Z.div_mod (Zpos mz) K ltac:(lia)) as Hdm.
    pose proof (Z.mod_pos_bound (Zpos mz) K HK) as Hmod.
    fold m1 in Hm1. rewrite <- Hm1 in Hdm. nia. }
  assert (HH' : H' < 2 ^ (1 - t)).
  { unfold H'. replace (1 - t) with (53 + (-52 - t)) by lia.
    rewrite Z.pow_add_r by lia.
    assert (0 < 2 ^ (-52 - t)) by (apply Z.pow_pos_nonneg; lia). nia. }
  assert (Hd2 : Zdigits2 m2 <= 1 - t) by (apply Zdigits2_le; lia).
  set (t2 := fexp prec emax (Zdigits2 m2 + t)).
  assert (Ht2 : t2 <= -52) by (unfold t2; rewrite fexp64; lia).
  assert (Ht2' : -1074 <= t2) by (unfold t2; rewrite fexp64; lia).
  assert (Htlo : -1074 <= t) by lia.
  cbn [shr_record_of_loc].
  assert (Hres : exists mrs3 e3, shr (Build_shr_record m2 false false) t (t2 - t) = (mrs3, e3) /\
            0 <= shr_m mrs3 /\ e3 <= -52 /\ -1074 <= e3 /\
            shr_m mrs3 * 2 ^ (e3 + 1074) <= Zpos mh * 2 ^ 1022).
  { assert (Hm2val : m2 * 2 ^ (t + 1074) <= Z.pos mh * 2 ^ 1022).
    { rewrite H1022. fold H'.
      assert (0 < 2 ^ (t + 1074)) by (apply Z.pow_pos_nonneg; lia). nia. }
    destruct (Z_lt_le_dec (t2 - t) 0) as [Hneg|Hpos].
    - exists (Build_shr_record m2 false false), t.
      destruct (t2 - t) as [|p|p]; try lia. cbn [shr shr_m].
      repeat split; try lia.
    - destruct (shr_nonneg_spec m2 t (t2 - t)) as (mrs3 & Hs & Hm3 & _); [lia|lia|].
      exists mrs3, (t + (t2 - t)). split; [exact Hs|].
      assert (HK2 : 0 < 2 ^ (t2 - t)) by (apply Z.pow_pos_nonneg; lia).
      rewrite Hm3. repeat split; try lia.
      + apply Z.div_pos; lia.
      + replace (t + (t2 - t) + 1074) with ((t2 - t) + (t + 1074)) by lia.
        rewrite Z.pow_add_r by lia.
        pose proof (Z.mul_div_le m2 (2 ^ (t2 - t)) HK2).
        assert (0 < 2 ^ (t + 1074)) by (apply Z.pow_pos_nonneg; lia). nia. }
  destruct Hres as (mrs3 & e3 & -> & Hm3pos & He3 & He3lo & Hv3).
  destruct (shr_m mrs3) as [|m3|m3]; [reflexivity| |lia].
  replace (e3 <=? emax - prec) with true by (symmetry; apply Z.leb_le; cbv [emax prec]; lia).
  unfold SFleb, SFcompare.
  destruct (Z.compare_spec e3 (-52)) as [Heq|Hlt|Hgt]; [|reflexivity|lia].
  change (Pos.compare_cont Eq m3 mh) with (Pos.compare m3 mh).
  subst e3. change (2 ^ (-52 + 1074)) with (2 ^ 1022) in Hv3.
  assert (0 < 2 ^ 1022) by (apply Z.pow_pos_nonneg; lia).
  destruct (Pos.compare_spec m3 mh); try reflexivity. nia.
Qed.

(** The left shift of a mantissa. *)
Lemma iter_xO_spec (m d : positive) :
  Zpos (Pos.iter xO m d) = Zpos m * 2 ^ Zpos d /\
  Zpos (digits2_pos (Pos.iter xO m d)) = Zpos (digits2_pos m) + Zpos d.
Proof.
  induction d as [|d [IH1 IH2]] using Pos.peano_ind.
  - cbn [Pos.iter digits2_pos]. split; lia.
  - rewrite Pos.iter_succ. cbn [digits2_pos].
    rewrite Pos2Z.inj_succ, Z.pow_succ_r by lia. split; [|lia].
    change (Z.pos (Pos.iter xO m d)~0) with (2 * Z.pos (Pos.iter xO m d)).
    rewrite IH1. ring.
Qed.

(** [shl_align] keeps the value, and lowers the exponent to [e'] if it can. *)
Lemma shl_align_spec (m : positive) (e e' : Z) :
  let '(mz, ez) := shl_align m e e' in
  ez = Z.min e e' /\
  Zpos mz = Zpos m * 2 ^ (e - ez) /\
  Zpos (digits2_pos mz) + ez = Zpos (digits2_pos m) + e.
Proof.
  unfold shl_align. destruct (e' - e) as [|d|d] eqn:Hd.
  - replace (Z.min e e') with e by lia. rewrite Z.sub_diag, Z.mul_1_r. auto.
  - replace (Z.min e e') with e by lia. rewrite Z.sub_diag, Z.mul_1_r. auto.
  - replace (Z.min e e') with e' by lia.
    destruct (iter_xO_spec m d) as [H1 H2].
    replace (e - e') with (Zpos d) by lia. rewrite H1, H2. repeat split; lia.
Qed.

Lemma binary_round_le_hi (M : positive) (ez : Z) (mh : positive) :
  -1074 <= ez -> ez <= -52 ->
  Zpos mh < 2 ^ 53 ->
  Zpos M * 2 ^ (ez + 1074) <= Zpos mh * 2 ^ 1022 ->
  SFleb (binary_round prec emax false M ez) (S754_finite false mh (-52)) = true.
Proof.
  intros Hlo Hhi Hmh Hval. unfold binary_round.
  set (t := fexp prec emax (Zpos (digits2_pos M) + ez)).
  assert (Hd : Zpos (digits2_pos M) <= 1 - ez).
  { apply digits2_pos_le.
    assert (HA : 0 < 2 ^ (ez + 1074)) by (apply Z.pow_pos_nonneg; lia).
    assert (H1075 : 2 ^ 53 * 2 ^ 1022 = 2 ^ (1 - ez) * 2 ^ (ez + 1074)).
    { rewrite <- !Z.pow_add_r by lia. f_equal. lia. }
    assert (0 < 2 ^ 1022) by (apply Z.pow_pos_nonneg; lia).
    nia. }
  assert (Ht : t <= -52) by (unfold t; rewrite fexp64; lia).
  assert (Ht' : -1074 <= t) by (unfold t; rewrite fexp64; lia).
  pose proof (shl_align_spec M ez t) as Hsh.
  destruct (shl_align M ez t) as [mz ez'].
  destruct Hsh as (Hez' & Hmz & Hdig).
  apply binary_round_aux_le_hi; rewrite ?Hdig; fold t; try lia.
  rewrite Hmz.
  replace (2 ^ (ez + 1074)) with (2 ^ (ez - ez') * 2 ^ (ez' + 1074)) in Hval.
  - lia.
  - rewrite <- Z.pow_add_r by lia. f_equal. lia.
Qed.


Lemma binary_round_aux_sign p em s m e l : has_sign s (binary_round_aux p em s m e l).
Proof.
  unfold binary_round_aux.
  destruct (shr_fexp p em m e l) as [mrs e'].
  destruct (shr_fexp p em _ e' loc_Exact) as [mrs' e''].
  destruct (shr_m mrs'); cbn; auto. destruct (e'' <=? em - p); cbn; auto.
Qed.

Lemma binary_round_sign p em s m e : has_sign s (binary_round p em s m e).
Proof.
  unfold binary_round. destruct (shl_align _ _ _). apply binary_round_aux_sign.
Qed.

Lemma has_sign_true_not_pos x : has_sign true x -> SFltb (S754_zero false) x = false.
Proof. destruct x as [s|s| |s m e]; cbn; intros H; try subst s; reflexivity. Qed.

Lemma has_sign_false_nonneg x hi :
  has_sign false x -> SFltb x hi = true -> SFleb (S754_zero false) x = true.
Proof.
  destruct x as [s|s| |s m e]; cbn; intros H; try subst s; try reflexivity.
  unfold SFltb. cbn. discriminate.
Qed.

(** Bounded mantissas of binary64. *)
Lemma bounded64 (m : positive) (e : Z) :
  bounded prec emax m e = true -> -1074 <= e /\ Zpos m < 2 ^ 53.
Proof.
  unfold bounded, canonical_mantissa. rewrite andb_true_iff, Z.eqb_eq, fexp64.
  intros [Hc _]. split; [lia|].
  pose proof (digits2_pos_bounds m) as [_ Hub].
  assert (Zpos (digits2_pos m) <= 53) by lia.
  assert (2 ^ Zpos (digits2_pos m) <= 2 ^ 53) by (apply Z.pow_le_mono_r; lia). lia.
Qed.

(** The comparison of a valid float with a bound of [[1, 2)], as values. *)
Lemma le_hi_value (m : positive) (e : Z) (mh : positive) :
  bounded prec emax m e = true ->
  2 ^ 52 <= Zpos mh ->
  SFleb (S754_finite false m e) (S754_finite false mh (-52)) = true ->
  Zpos m * 2 ^ (e + 1074) <= Zpos mh * 2 ^ 1022.
Proof.
  intros Hb Hmh. destruct (bounded64 m e Hb) as [He Hm].
  unfold SFleb, SFcompare.
  destruct (Z.compare_spec e (-52)) as [Heq|Hlt|Hgt]; [| |discriminate].
  - subst e. change (Pos.compare_cont Eq m mh) with (Pos.compare m mh).
    change (-52 + 1074) with 1022.
    assert (0 < 2 ^ 1022) by (apply Z.pow_pos_nonneg; lia).
    destruct (Pos.compare_spec m mh); try discriminate; intros _; nia.
  - intros _.
    assert (HA : 0 < 2 ^ (e + 1074)) by (apply Z.pow_pos_nonneg; lia).
    assert (H1 : 2 ^ 53 * 2 ^ (e + 1074) <= 2 ^ 52 * 2 ^ 1022).
    { rewrite <- !Z.pow_add_r by lia. apply Z.pow_le_mono_r; lia. }
    assert (0 < 2 ^ 1022) by (apply Z.pow_pos_nonneg; lia).
    nia.
Qed.

(** [x <= hi] and [0 < x - c] give [x - c <= hi], for [0 < c] and
    [1 <= hi < 2]. *)
Lemma SF64sub_le_hi (x : spec_float) (mc : positive) (ec : Z) (mh : positive) :
  valid_binary x = true ->
  bounded prec emax mc ec = true -> ec <= -52 ->
  2 ^ 52 <= Zpos mh < 2 ^ 53 ->
  SFleb (S754_zero false) x = true ->
  SFleb x (S754_finite false mh (-52)) = true ->
  SFltb (S754_zero false) (SF64sub x (S754_finite false mc ec)) = true ->
  SFleb (SF64sub x (S754_finite false mc ec)) (S754_finite false mh (-52)) = true.
Proof.
  intros Hv Hc Hec Hmh H0 Hhi Hpos.
  destruct x as [s|s| |s m e]; try discriminate.
  - destruct s; discriminate.
  - destruct s; [discriminate|].
    cbn [valid_binary] in Hv.
    destruct (bounded64 m e Hv) as [He Hm].
    destruct (bounded64 mc ec Hc) as [Hec' Hmc].
    pose proof (le_hi_value m e mh Hv (proj1 Hmh) Hhi) as Hval.
    unfold SF64sub, SFsub in *. cbn [cond_Zopp] in *.
    set (ez := Z.min e ec) in *.
    pose proof (shl_align_spec m e ez) as Ha.
    pose proof (shl_align_spec mc ec ez) as Hb.
    destruct (shl_align m e ez) as [a ea], (shl_align mc ec ez) as [b eb].
    cbn [fst] in *.
    destruct Ha as (Hea & Hav & _), Hb as (Heb & Hbv & _).
    destruct (Z.pos a - Z.pos b) as [|M|M] eqn:Hdiff; cbn [binary_normalize] in *.
    + discriminate.
    + apply binary_round_le_hi; try lia.
      assert (Hea' : ea = ez) by lia. rewrite Hea' in Hav.
      assert (Z.pos M <= Z.pos m * 2 ^ (e - ez)) by lia.
      assert (HA : 0 < 2 ^ (ez + 1074)) by (apply Z.pow_pos_nonneg; lia).
      replace (2 ^ (e + 1074)) with (2 ^ (e - ez) * 2 ^ (ez + 1074)) in Hval.
      * nia.
      * rewrite <- Z.pow_add_r by lia. f_equal. lia.
    + rewrite has_sign_true_not_pos in Hpos by apply binary_round_sign. discriminate.
Qed.

(** [0 <= x] and [x + c < hi] give [0 <= x + c], for [0 < c]. *)
Lemma SF64add_nonneg (x : spec_float) (mc : positive) (ec : Z) (hi : spec_float) :
  SFleb (S754_zero false) x = true ->
  SFltb (SF64add x (S754_finite false mc ec)) hi = true ->
  SFleb (S754_zero false) (SF64add x (S754_finite false mc ec)) = true.
Proof.
  intros H0 Hlt. apply has_sign_false_nonneg with (hi := hi); [|assumption].
  destruct x as [s|s| |s m e]; try discriminate; cbn.
  - reflexivity.
  - destruct s; [discriminate|reflexivity].
  - destruct s; [discriminate|]. cbn [cond_Zopp].
    destruct (shl_align m e (Z.min e ec)) as [a ea], (shl_align mc ec (Z.min e ec)) as [b eb].
    cbn [fst]. cbn [Z.add binary_normalize]. apply binary_round_sign.
Qed.

Local Close Scope Z_scope.
Local Open Scope float_scope.

(** The same two facts on primitive floats. *)
Lemma float_sub_step (x c hi : float) (mc : positive) (ec : Z) (mh : positive) :
  Prim2SF c = S754_finite false mc ec -> (ec <= -52)%Z ->
  Prim2SF hi = S754_finite false mh (-52) ->
  (0 <=? x) = true -> (x <=? hi) = true ->
  (0 <? x - c) = true -> (x - c <=? hi) = true.
Proof.
  intros Hc Hec Hh. rewrite !leb_spec, !ltb_spec, sub_spec, Hc, Hh.
  change (Prim2SF 0) with (S754_zero false).
  pose proof (Prim2SF_valid c) as Hvc. rewrite Hc in Hvc.
  pose proof (Prim2SF_valid hi) as Hvh. rewrite Hh in Hvh.
  intros H0 H1 H2. apply SF64sub_le_hi; auto using Prim2SF_valid.
  destruct (bounded64 mh (-52) Hvh) as [_ Hub]. split; [|exact Hub].
  cbn [valid_binary] in Hvh. unfold bounded, canonical_mantissa in Hvh.
  rewrite andb_true_iff, Z.eqb_eq, fexp64 in Hvh. destruct Hvh as [Hcan _].
  pose proof (digits2_pos_bounds mh) as [Hlb _].
  assert (Zpos (digits2_pos mh) = 53%Z) by lia.
  replace (Zpos (digits2_pos mh) - 1)%Z with 52%Z in Hlb by lia. exact Hlb.
Qed.

Lemma float_add_step (x c hi : float) (mc : positive) (ec : Z) :
  Prim2SF c = S754_finite false mc ec ->
  (0 <=? x) = true -> (x + c <? hi) = true -> (0 <=? x + c) = true.
Proof.
  intros Hc. rewrite !leb_spec, !ltb_spec, add_spec, Hc.
  change (Prim2SF 0) with (S754_zero false).
  apply SF64add_nonneg.
Qed.

End Binary64.

(* ================================================================== *)
(** * The key handler *)

(** A closed float equation, by evaluation. *)
Ltac float_eval := vm_compute; reflexivity.

(** The next comparison of [key] in the chain of [if]s of [handle_key]:
    [tac] closes the branch of the key, the other keys remain. *)
Ltac next_key key tac :=
  match goal with
  | |- context [(key =? ?c)%char] => destruct (key =? c)%char; [tac|]
  end.

Section KeyHandler.

Local Open Scope float_scope.

Lemma ltb_leb (x y : float) : (x <? y) = true -> (x <=? y) = true.
Proof.
  rewrite ltb_spec, leb_spec. unfold SFltb, SFleb.
  destruct (SFcompare (Prim2SF x) (Prim2SF y)) as [[]|]; congruence.
Qed.

(** A decrease: [max(0.0, x - c)]. *)
Lemma decrease_in_range (x c hi : float) (mc : positive) (ec : Z) (mh : positive) :
  Prim2SF c = S754_finite false mc ec -> (ec <= -52)%Z ->
  Prim2SF hi = S754_finite false mh (-52) ->
  in_closed_range hi x = true ->
  in_closed_range hi (Py.max 0.0 (x - c)) = true.
Proof.
  intros Hc Hec Hh. unfold in_closed_range, Py.max. rewrite !andb_true_iff.
  intros [H0 H1]. destruct (0 <? x - c) eqn:Hpos.
  - split; [now apply ltb_leb | now apply (float_sub_step x c hi mc ec mh)].
  - split; [reflexivity|]. rewrite leb_spec, Hh. reflexivity.
Qed.

(** An increase: [min(hi, x + c)]. *)
Lemma increase_in_range (x c hi : float) (mc : positive) (ec : Z) (mh : positive) :
  Prim2SF c = S754_finite false mc ec ->
  Prim2SF hi = S754_finite false mh (-52) ->
  in_closed_range hi x = true ->
  in_closed_range hi (Py.min hi (x + c)) = true.
Proof.
  intros Hc Hh. unfold in_closed_range, Py.min. rewrite !andb_true_iff.
  intros [H0 H1]. destruct (x + c <? hi) eqn:Hlt.
  - split; [now apply (float_add_step x c hi mc ec) | now apply ltb_leb].
  - rewrite !leb_spec, Hh. split; [reflexivity|].
    apply SFleb_refl. reflexivity.
Qed.

End KeyHandler.

(** The state a key leaves behind. *)
Lemma handle_key_state (key : ascii) (s : processor) :
  state_of (handle_key key s) =
  let ca := center_attenuation s in
  let vrm := vocal_removal_mix s in
  let mv := master_volume s in
  if (key =? "1")%char then with_params (Py.max 0.0 (ca - 0.05)) vrm mv s
  else if (key =? "2")%char then with_params (Py.min 1.0 (ca + 0.05)) vrm mv s
  else if (key =? "3")%char then with_params ca (Py.max 0.0 (vrm - 0.1)) mv s
  else if (key =? "4")%char then with_params ca (Py.min 1.0 (vrm + 0.1)) mv s
  else if (key =? "5")%char then with_params ca vrm (Py.max 0.0 (mv - 0.05)) s
  else if (key =? "6")%char then with_params ca vrm (Py.min 1.5 (mv + 0.05)) s
  else if (key =? "r")%char then with_params 0.6 1.0 1.0 s
  else if (key =? "q")%char then with_is_running false s
  else s.
Proof.
  unfold handle_key. cbv zeta.
  repeat next_key key reflexivity. reflexivity.
Qed.

(** A key never raises and never waits; only [q] leaves the loop. *)
Lemma handle_key_outcome (key : ascii) (s : processor) :
  outcome_of (handle_key key s) = Ok (if (key =? "q")%char then Break else Continue).
Proof.
  unfold handle_key.
  destruct (Ascii.eqb_spec key "q") as [->|Hq]; [reflexivity|].
  repeat next_key key reflexivity. reflexivity.
Qed.

Lemma handle_key_in_range (key : ascii) (s : processor) :
  params_in_range s = true -> params_in_range (state_of (handle_key key s)) = true.
Proof.
  rewrite handle_key_state. cbv zeta. unfold params_in_range.
  rewrite !andb_true_iff. intros [[Hca Hvrm] Hmv].
  repeat next_key key
    ltac:(cbn [with_params with_is_running
               center_attenuation vocal_removal_mix master_volume];
          repeat split; try assumption; try reflexivity).
  - eapply decrease_in_range; [float_eval | lia | float_eval | assumption].
  - eapply increase_in_range; [float_eval | float_eval | assumption].
  - eapply decrease_in_range; [float_eval | lia | float_eval | assumption].
  - eapply increase_in_range; [float_eval | float_eval | assumption].
  - eapply decrease_in_range; [float_eval | lia | float_eval | assumption].
  - eapply increase_in_range; [float_eval | float_eval | assumption].
  - auto.
Qed.

Lemma key_press_state (b : ascii) (s : processor) :
  state_of (key_press b s) =
  if (nat_of_ascii b <? 128)%nat then state_of (handle_key (lower b) s) else s.
Proof.
  unfold key_press, decode_utf8, bind.
  destruct (nat_of_ascii b <? 128)%nat; cbn [ret raise]; [|reflexivity].
  destruct (handle_key (lower b) s) as [[r s1] t1]. reflexivity.
Qed.

Lemma key_press_outcome (b : ascii) (s : processor) :
  outcome_of (key_press b s) =
  if (nat_of_ascii b <? 128)%nat
  then Ok (if (lower b =? "q")%char then Break else Continue)
  else Raise UnicodeDecodeError.
Proof.
  unfold key_press, decode_utf8, bind.
  destruct (nat_of_ascii b <? 128)%nat; cbn [ret raise]; [|reflexivity].
  pose proof (handle_key_outcome (lower b) s) as Hk.
  destruct (handle_key (lower b) s) as [[r s1] t1]. exact Hk.
Qed.

Section ListenerInvariant.

Variable P : processor -> Prop.
Hypothesis handle_key_keeps : forall key s, P s -> P (state_of (handle_key key s)).

Lemma key_press_keeps (b : ascii) (s : processor) :
  P s -> P (state_of (key_press b s)).
Proof.
  intros H. rewrite key_press_state.
  destruct (nat_of_ascii b <? 128)%nat; auto.
Qed.

(** What every key keeps, the whole loop keeps. *)
Lemma keyboard_listener_keeps (polls : list (option ascii)) (s : processor) :
  P s -> P (state_of (keyboard_listener polls s)).
Proof.
  revert s. induction polls as [|poll rest IH]; intros s H; [exact H|].
  cbn [keyboard_listener]. unfold bind at 1, get_is_running.
  destruct (is_running s); [|exact H].
  destruct poll as [b|].
  - unfold bind.
    pose proof (key_press_keeps b s H) as Hk.
    destruct (key_press b s) as [[[ctl|e|] s1] t1]; cbn [state_of fst snd] in Hk;
      try exact Hk.
    destruct ctl; [|exact Hk].
    specialize (IH s1 Hk).
    destruct (keyboard_listener rest s1) as [[r2 s2] t2]. exact IH.
  - specialize (IH s H).
    destruct (keyboard_listener rest s) as [[r2 s2] t2]. exact IH.
Qed.

End ListenerInvariant.

Lemma handle_key_audio_queue (key : ascii) (s : processor) :
  audio_queue (state_of (handle_key key s)) = audio_queue s.
Proof.
  rewrite handle_key_state. cbv zeta.
  repeat next_key key reflexivity. reflexivity.
Qed.

(* ================================================================== *)
(** * The transfer buffer and the two callbacks *)

Lemma enqueue_or_drop_eq (b : matrix) (s : processor) :
  enqueue_or_drop b s
  = (Ok tt,
     if queue_full (audio_queue s) then s
     else with_audio_queue s (queue_append (audio_queue s) b),
     []).
Proof.
  unfold enqueue_or_drop, try_except, put_nowait.
  destruct (queue_full (audio_queue s)); reflexivity.
Qed.

Lemma for_each_enqueue (bs : list matrix) (s : processor) (cap : nat) :
  maxsize (audio_queue s) = cap -> (0 < cap)%nat ->
  (length (items (audio_queue s)) <= cap)%nat ->
  exists s',
    for_each bs enqueue_or_drop s = (Ok tt, s', []) /\
    maxsize (audio_queue s') = cap /\
    items (audio_queue s') = firstn cap (items (audio_queue s) ++ bs).
Proof.
  intros Hcap Hpos. revert s Hcap.
  induction bs as [|b bs IH]; intros s Hcap Hlen.
  - exists s. cbn [for_each]. rewrite app_nil_r, firstn_all2 by lia. auto.
  - cbn [for_each]. unfold bind. rewrite enqueue_or_drop_eq.
    unfold queue_full. rewrite Hcap.
    apply Nat.ltb_lt in Hpos as Hpos'. rewrite Hpos'. cbn [andb].
    destruct (Nat.leb_spec cap (length (items (audio_queue s)))) as [Hfull|Hroom].
    + destruct (IH s Hcap Hlen) as (s' & -> & Hm & Hi). exists s'.
      repeat split; [exact Hm|]. rewrite Hi.
      rewrite !firstn_app. replace (cap - length (items (audio_queue s)))%nat with 0%nat by lia.
      reflexivity.
    + destruct (IH (with_audio_queue s (queue_append (audio_queue s) b))) as (s' & -> & Hm & Hi).
      * exact Hcap.
      * cbn. rewrite length_app. cbn. lia.
      * exists s'. repeat split; [exact Hm|]. rewrite Hi. cbn.
        now rewrite <- app_assoc.
Qed.

Lemma output_callback_empty_eq (outdata : matrix) (frames : nat) (time : Z)
      (status : bool) (s : processor) :
  items (audio_queue s) = [] ->
  output_callback outdata frames time status s
  = (Ok (np_fill outdata f32_zero), s,
     (if status then [Print MsgOutputStatus] else []) ++ [Compute OpFill]).
Proof.
  intros He. unfold output_callback, bind, try_except, get_nowait.
  destruct status; cbn [print emit ret]; rewrite He; reflexivity.
Qed.

Lemma np_fill_silence (a : matrix) : same_shape a (np_fill a f32_zero) /\ all_zero (np_fill a f32_zero).
Proof.
  unfold same_shape, all_zero, matrix_wf, np_fill. cbn [ncols rows].
  rewrite length_map. repeat split.
  - apply Forall_forall. intros r Hr. apply in_map_iff in Hr as (x & <- & _).
    apply repeat_length.
  - apply Forall_forall. intros r Hr. apply in_map_iff in Hr as (x & <- & _).
    apply Forall_forall. intros y Hy. now apply repeat_spec in Hy.
Qed.

Lemma call_output_empty_eq (calls : list (matrix * nat * Z * bool)) (s : processor) :
  items (audio_queue s) = [] ->
  exists t,
    call_each call_output calls s
    = (Ok (map (fun c => np_fill (outdata_of c) f32_zero) calls), s, t).
Proof.
  intros He. induction calls as [|[[[outdata frames] time] status] calls [t IH]].
  - exists []. reflexivity.
  - cbn [call_each call_output map outdata_of fst]. unfold bind at 1.
    rewrite output_callback_empty_eq by assumption.
    unfold bind at 1. rewrite IH. cbn [ret]. eauto.
Qed.

Lemma input_callback_raise_eq (s : processor) (indata : ndarray) (frames : nat)
      (time : Z) (status : bool) (e : exn) (t : list event) :
  process_audio (np_copy indata) s = (Raise e, s, t) ->
  input_callback indata frames time status s
  = (Ok tt, s,
     (if status then [Print MsgInputStatus] else []) ++ t ++ [Print (MsgProcessingError e)]).
Proof.
  intros Heq. unfold input_callback, bind, try_except.
  destruct status; cbn [print emit ret]; rewrite Heq; reflexivity.
Qed.

Lemma input_callback_ok_eq (s : processor) (indata : ndarray) (frames : nat)
      (time : Z) (status : bool) (out : matrix) (t : list event) :
  process_audio (np_copy indata) s = (Ok out, s, t) ->
  input_callback indata frames time status s
  = (Ok tt,
     if queue_full (audio_queue s) then s
     else with_audio_queue s (queue_append (audio_queue s) out),
     (if status then [Print MsgInputStatus] else []) ++ t ++ []).
Proof.
  intros Heq. unfold input_callback, bind, try_except.
  destruct status; cbn [print emit ret]; rewrite Heq, enqueue_or_drop_eq; reflexivity.
Qed.

(** [input_callback] always returns; it pushes the processed block if there
    is one and the queue has room, and changes nothing else. *)
Lemma input_callback_state (s : processor) (indata : ndarray) (frames : nat)
      (time : Z) (status : bool) :
  outcome_of (input_callback indata frames time status s) = Ok tt /\
  state_of (input_callback indata frames time status s)
  = match outcome_of (process_audio (np_copy indata) s) with
    | Ok out =>
        if queue_full (audio_queue s) then s
        else with_audio_queue s (queue_append (audio_queue s) out)
    | _ => s
    end.
Proof.
  destruct (process_audio_cases s (np_copy indata)) as [(out & t & Heq)|Heq].
  - rewrite (input_callback_ok_eq s indata frames time status out t Heq), Heq.
    split; reflexivity.
  - rewrite (input_callback_raise_eq s indata frames time status IndexError [] Heq), Heq.
    split; reflexivity.
Qed.

(* ================================================================== *)
(** * The worked examples of the specification *)

(** [vocalRemovalMix = 1.0], [centerAttenuation = 0.0], [masterVolume = 1.0],
    [L = 0.8], [R = 0.3]: both channels are 0.5. *)
Example mix_vocal_removal_only :
  outcome_of (process_audio (stereo_frame 0.8 0.3)
                (with_params 0.0 1.0 1.0 default_processor))
  = Ok {| ncols := 2; rows := [[f32_of_float 0.5; f32_of_float 0.5]] |}.
Proof. reflexivity. Qed.

(** [vocalRemovalMix = 0.0], [centerAttenuation = 1.0], [masterVolume = 1.0],
    [L = 0.4], [R = 0.6]: both channels are 0.5. *)
Example mix_center_only :
  outcome_of (process_audio (stereo_frame 0.4 0.6)
                (with_params 1.0 0.0 1.0 default_processor))
  = Ok {| ncols := 2; rows := [[f32_of_float 0.5; f32_of_float 0.5]] |}.
Proof. reflexivity. Qed.

(** The pre-fill: ten blocks of silence, by [put], which does not wait on
    the empty queue of capacity 20. *)
Example prefill_ten_blocks :
  outcome_of (start_processing_prologue default_processor) = Ok tt /\
  items (audio_queue (state_of (start_processing_prologue default_processor)))
  = repeat (np_zeros 2048 2) 10 /\
  is_running (state_of (start_processing_prologue default_processor)) = true.
Proof. vm_compute. repeat split. Qed.

(** A processed block that was pushed is what the next [output_callback]
    plays, and the queue is empty again. *)
Example pushed_block_is_played :
  let played :=
    (input_callback (stereo_frame 0.8 0.3) 1 0 false ;;
     output_callback (np_zeros 1 2) 1 0 false) default_processor in
  outcome_of played
  = Ok {| ncols := 2;
          rows := [[mix_formula default_processor (f32_of_float 0.8) (f32_of_float 0.3);
                    mix_formula default_processor (f32_of_float 0.8) (f32_of_float 0.3)]] |} /\
  items (audio_queue (state_of played)) = [].
Proof. vm_compute. split; reflexivity. Qed.

(* ================================================================== *)
(** * The specified properties *)

(** C1. For every block of at least two channels and every setting of the
    three parameters, [process_audio] returns a block of two columns with
    the same number of frames, and in each frame, with [L] the sample of
    channel 0 and [R] that of channel 1, both output samples are
    [clamp(((L - R) * vocalRemovalMix + ((L + R) / 2) * centerAttenuation)
    * masterVolume, -1.0, 1.0)], computed in float32. *)
Theorem process_audio_stereo_mix (s : processor) (a : matrix) :
  (2 <= ncols a)%nat ->
  exists out,
    outcome_of (process_audio (Arr2 a) s) = Ok out /\
    ncols out = 2%nat /\
    length (rows out) = length (rows a) /\
    forall i r, nth_error (rows a) i = Some r ->
      nth_error (rows out) i =
      Some [mix_formula s (row_get 0 r) (row_get 1 r);
            mix_formula s (row_get 0 r) (row_get 1 r)].
Proof.
  intros Hc. rewrite process_audio_stereo_eq by assumption.
  eexists. split; [reflexivity|]. cbn [ncols rows].
  split; [reflexivity|]. split; [apply length_map|].
  intros i r Hr. rewrite nth_error_map, Hr. reflexivity.
Qed.

Lemma process_audio_stereo_mix_witness :
  (2 <= 2)%nat /\
  exists out,
    outcome_of (process_audio (stereo_frame 0.8 0.3) default_processor) = Ok out /\
    ncols out = 2%nat /\
    length (rows out) = 1%nat /\
    forall i r, nth_error [[f32_of_float 0.8; f32_of_float 0.3]] i = Some r ->
      nth_error (rows out) i =
      Some [mix_formula default_processor (row_get 0 r) (row_get 1 r);
            mix_formula default_processor (row_get 0 r) (row_get 1 r)].
Proof.
  split; [lia|].
  apply (process_audio_stereo_mix default_processor
           {| ncols := 2; rows := [[f32_of_float 0.8; f32_of_float 0.3]] |}).
  cbn. lia.
Defined.

(** C2, as the specification states it, fails on a block without any
    channel: it has fewer than two channels and one frame, and
    [process_audio] raises [IndexError] instead of returning a block. *)
Lemma process_audio_zero_channels_not_passthrough :
  (channels zero_channel_block < 2)%nat /\
  ~ exists out, outcome_of (process_audio zero_channel_block default_processor) = Ok out.
Proof.
  split; [cbn; lia|]. intros [out H]. discriminate H.
Qed.

(** C2, amended.  For every block of exactly one channel (a 1-D block, or a
    2-D block of one column) with samples [mono], [process_audio] returns a
    block of two columns and as many frames whose two channels are both
    [mono]; the result does not depend on the three parameters, which are
    not read. *)
Theorem process_audio_mono_passthrough (s : processor) (audio_data : ndarray) (mono : vec) :
  mono_input audio_data = Some mono ->
  outcome_of (process_audio audio_data s)
    = Ok {| ncols := 2; rows := map (fun x => [x; x]) mono |} /\
  length (rows {| ncols := 2; rows := map (fun x => [x; x]) mono |}) = length mono /\
  log_of (process_audio audio_data s) = [Compute OpColumnStack].
Proof.
  intros Hm. destruct audio_data as [v|a]; cbn [mono_input] in Hm.
  - injection Hm as <-. rewrite process_audio_1d_eq. cbn [rows].
    rewrite length_map. auto.
  - destruct (Nat.eqb_spec (ncols a) 1) as [Hc|]; [|discriminate].
    injection Hm as <-. rewrite process_audio_one_channel_eq by assumption.
    cbn [outcome_of log_of fst snd rows]. rewrite !map_map, !length_map. auto.
Qed.

Lemma process_audio_mono_passthrough_witness :
  mono_input (Arr1 [f32_of_float 0.25; f32_of_float 5.0])
    = Some [f32_of_float 0.25; f32_of_float 5.0] /\
  outcome_of (process_audio (Arr1 [f32_of_float 0.25; f32_of_float 5.0]) default_processor)
    = Ok {| ncols := 2;
            rows := map (fun x => [x; x]) [f32_of_float 0.25; f32_of_float 5.0] |} /\
  length (rows {| ncols := 2;
                  rows := map (fun x => [x; x]) [f32_of_float 0.25; f32_of_float 5.0] |})
    = length [f32_of_float 0.25; f32_of_float 5.0] /\
  log_of (process_audio (Arr1 [f32_of_float 0.25; f32_of_float 5.0]) default_processor)
    = [Compute OpColumnStack].
Proof.
  split; [reflexivity|].
  apply (process_audio_mono_passthrough default_processor
           (Arr1 [f32_of_float 0.25; f32_of_float 5.0])
           [f32_of_float 0.25; f32_of_float 5.0]).
  reflexivity.
Defined.

(** C3, as the specification states it, fails on a block of one channel:
    with the default parameters, which are in range, the sample 5.0 is
    returned as it is. *)
Lemma limiter_not_applied_to_mono :
  params_in_range default_processor = true /\
  exists out,
    outcome_of (process_audio (Arr1 [f32_of_float 5.0]) default_processor) = Ok out /\
    samples_within_unit out = false.
Proof.
  split; [reflexivity|]. eexists. split; reflexivity.
Qed.

(** C3, amended.  For every setting of the parameters and every block of
    at least two channels, each sample of the returned block lies in
    [[-1.0, 1.0]] unless the mix of its frame before the limiter is NaN, and
    is NaN then; and [L = 1.0], [R = -1.0], [vocalRemovalMix = 1.0],
    [centerAttenuation = 0], [masterVolume = 1.0] give exactly 1.0. *)
Theorem process_audio_stereo_limited (s : processor) (a : matrix) :
  (2 <= ncols a)%nat ->
  (exists out,
     outcome_of (process_audio (Arr2 a) s) = Ok out /\
     length (rows out) = length (rows a) /\
     forall i r, nth_error (rows a) i = Some r ->
       exists x,
         nth_error (rows out) i = Some [x; x] /\
         (f32_is_nan (raw_mix s (row_get 0 r) (row_get 1 r)) = false ->
          within_unit x = true) /\
         (f32_is_nan (raw_mix s (row_get 0 r) (row_get 1 r)) = true ->
          x = S754_nan)) /\
  outcome_of (process_audio (stereo_frame 1.0 (-1.0)) (with_params 0.0 1.0 1.0 s))
    = Ok {| ncols := 2; rows := [[f32_of_float 1.0; f32_of_float 1.0]] |}.
Proof.
  intros Hc. split.
  - rewrite process_audio_stereo_eq by assumption.
    eexists. split; [reflexivity|]. cbn [rows]. split; [apply length_map|].
    intros i r Hr. eexists. rewrite nth_error_map, Hr. split; [reflexivity|].
    destruct (mix_formula_limited s (row_get 0 r) (row_get 1 r)). auto.
  - unfold stereo_frame. rewrite process_audio_stereo_eq by (cbn; lia).
    reflexivity.
Qed.

Lemma process_audio_stereo_limited_witness :
  (2 <= 2)%nat /\
  outcome_of (process_audio (stereo_frame 1.0 (-1.0))
                (with_params 0.0 1.0 1.0 default_processor))
    = Ok {| ncols := 2; rows := [[f32_of_float 1.0; f32_of_float 1.0]] |}.
Proof.
  split; [lia|].
  apply (process_audio_stereo_limited default_processor
           {| ncols := 2; rows := [[f32_of_float 0.8; f32_of_float 0.3]] |}).
  cbn. lia.
Defined.

(** C4. Pushing into the transfer buffer never raises and never waits; a
    push on a buffer that holds [cap] blocks changes nothing, and
    [input_callback] on such a buffer returns with the processor as it was;
    after any sequence of pushes the buffer holds the first [cap] blocks of
    what it held followed by what was pushed, in order.  So [cap + 1]
    pushes on an empty buffer leave exactly the first [cap] blocks: the
    newest is dropped, not the oldest. *)
Theorem transfer_buffer_drops_newest (s : processor) (cap : nat) (bs : list matrix)
        (b : matrix) (indata : ndarray) (frames : nat) (time : Z) (status : bool) :
  maxsize (audio_queue s) = cap -> (0 < cap)%nat ->
  (length (items (audio_queue s)) <= cap)%nat ->
  enqueue_or_drop b s
    = (Ok tt,
       if (length (items (audio_queue s)) <? cap)%nat
       then with_audio_queue s (queue_append (audio_queue s) b) else s,
       []) /\
  (if (length (items (audio_queue s)) <? cap)%nat then True
   else outcome_of (input_callback indata frames time status s) = Ok tt /\
        state_of (input_callback indata frames time status s) = s) /\
  outcome_of (for_each bs enqueue_or_drop s) = Ok tt /\
  items (audio_queue (state_of (for_each bs enqueue_or_drop s)))
    = firstn cap (items (audio_queue s) ++ bs) /\
  length (items (audio_queue (state_of (for_each bs enqueue_or_drop s))))
    = Nat.min cap (length (items (audio_queue s)) + length bs).
Proof.
  intros Hcap Hpos Hlen.
  assert (Hfull : queue_full (audio_queue s)
                  = negb (length (items (audio_queue s)) <? cap)%nat).
  { unfold queue_full. rewrite Hcap. apply Nat.ltb_lt in Hpos as ->.
    cbn [andb]. apply Nat.leb_antisym. }
  split; [|split].
  - rewrite enqueue_or_drop_eq, Hfull.
    now destruct (length (items (audio_queue s)) <? cap)%nat.
  - destruct (input_callback_state s indata frames time status) as [Ho Hs].
    rewrite Hs, Hfull.
    destruct (length (items (audio_queue s)) <? cap)%nat; [exact I|].
    split; [exact Ho|].
    destruct (outcome_of (process_audio (np_copy indata) s)); reflexivity.
  - destruct (for_each_enqueue bs s cap Hcap Hpos Hlen) as (s' & -> & _ & Hi).
    cbn [outcome_of state_of fst snd]. rewrite Hi.
    repeat split. rewrite length_firstn, length_app. reflexivity.
Qed.

Lemma transfer_buffer_drops_newest_witness :
  maxsize (audio_queue default_processor) = 20%nat /\
  items (audio_queue (state_of
    (for_each (map (fun n => np_zeros n 2) (seq 0 21)) enqueue_or_drop default_processor)))
    = map (fun n => np_zeros n 2) (seq 0 20) /\
  length (items (audio_queue (state_of
    (for_each (map (fun n => np_zeros n 2) (seq 0 21)) enqueue_or_drop default_processor))))
    = 20%nat.
Proof.
  split; [reflexivity|].
  exact (proj2 (proj2 (proj2 (transfer_buffer_drops_newest default_processor 20
           (map (fun n => np_zeros n 2) (seq 0 21)) (np_zeros 0 2)
           zero_channel_block 0 0 false
           eq_refl (Nat.lt_0_succ 19) (Nat.le_0_l 20))))).
Defined.

(** C5. While the transfer buffer is empty, every call of
    [output_callback] returns (it neither raises nor waits) with an output
    buffer of the same shape filled with zeros, and leaves the buffer
    empty: so does the next call, for as many calls as are made before a
    push. *)
Theorem output_callback_silence_when_empty (s : processor) (calls : list (matrix * nat * Z * bool)) :
  items (audio_queue s) = [] ->
  exists outs,
    outcome_of (call_each call_output calls s) = Ok outs /\
    state_of (call_each call_output calls s) = s /\
    Forall2 (fun c out => same_shape (outdata_of c) out /\ all_zero out) calls outs.
Proof.
  intros He. destruct (call_output_empty_eq calls s He) as [t ->].
  eexists. repeat split.
  induction calls as [|c calls IH]; constructor; [apply np_fill_silence | exact IH].
Qed.

Lemma output_callback_silence_when_empty_witness :
  items (audio_queue default_processor) = [] /\
  exists outs,
    outcome_of (call_each call_output
                  [(np_zeros 4 2, 4%nat, 0%Z, false); (np_zeros 4 2, 4%nat, 1%Z, true)]
                  default_processor) = Ok outs /\
    state_of (call_each call_output
                [(np_zeros 4 2, 4%nat, 0%Z, false); (np_zeros 4 2, 4%nat, 1%Z, true)]
                default_processor) = default_processor /\
    Forall2 (fun c out => same_shape (outdata_of c) out /\ all_zero out)
            [(np_zeros 4 2, 4%nat, 0%Z, false); (np_zeros 4 2, 4%nat, 1%Z, true)] outs.
Proof.
  split; [reflexivity|].
  apply (output_callback_silence_when_empty default_processor). reflexivity.
Defined.

(** Steps that overshoot are clamped to the bound, not rejected; a step
    that stays inside the range is taken as it is. *)
Example overshoot_is_clamped :
  center_attenuation
    (state_of (handle_key "2" (with_params 0.98 1.0 1.0 default_processor))) = 1.0%float /\
  master_volume
    (state_of (handle_key "6" (with_params 0.6 1.0 1.48 default_processor))) = 1.5%float /\
  vocal_removal_mix
    (state_of (handle_key "3" (with_params 0.6 0.04 1.0 default_processor))) = 0.0%float /\
  center_attenuation
    (state_of (handle_key "1" (with_params 0.5 1.0 1.0 default_processor)))
    = (0.5 - 0.05)%float.
Proof. repeat split; vm_compute; reflexivity. Qed.

(** C6. From any state whose three parameters are in their ranges, any
    sequence of key presses (the increase, decrease and reset keys, and any
    other byte) leaves [centerAttenuation] in [[0.0, 1.0]],
    [vocalRemovalMix] in [[0.0, 1.0]] and [masterVolume] in [[0.0, 1.5]];
    no key is rejected: the handler returns for every key, and the
    parameters it leaves are those of [key_effect]: the step of the key
    applied to its parameter, kept when it stays within the bound and
    replaced by the bound when it overshoots, the other two parameters as
    they were. *)
Theorem key_presses_keep_ranges (polls : list (option ascii)) (key : ascii) (s : processor) :
  params_in_range s = true ->
  params_in_range (state_of (keyboard_listener polls s)) = true /\
  params_in_range (state_of (handle_key key s)) = true /\
  outcome_of (handle_key key s) = Ok (if (key =? "q")%char then Break else Continue) /\
  params_of (state_of (handle_key key s)) = key_effect key (params_of s).
Proof.
  intros H. split; [|split; [|split]].
  - apply keyboard_listener_keeps; [|exact H].
    intros k s0. apply handle_key_in_range.
  - now apply handle_key_in_range.
  - apply handle_key_outcome.
  - rewrite handle_key_state. cbv zeta. unfold key_effect, params_of.
    repeat next_key key reflexivity. reflexivity.
Qed.

Lemma key_presses_keep_ranges_witness :
  params_in_range (with_params 0.98 1.0 1.5 (with_is_running true default_processor)) = true /\
  params_in_range
    (state_of (keyboard_listener
                 [Some "2"; Some "2"; None; Some "6"; Some "3"; Some "R"; Some "1";
                  Some "x"; Some "5"]%char
                 (with_params 0.98 1.0 1.5 (with_is_running true default_processor)))) = true /\
  params_in_range
    (state_of (handle_key "2"
                 (with_params 0.98 1.0 1.5 (with_is_running true default_processor)))) = true /\
  outcome_of (handle_key "2"
                (with_params 0.98 1.0 1.5 (with_is_running true default_processor)))
    = Ok (if ("2" =? "q")%char then Break else Continue) /\
  params_of
    (state_of (handle_key "2"
                 (with_params 0.98 1.0 1.5 (with_is_running true default_processor))))
    = key_effect "2"
        (params_of (with_params 0.98 1.0 1.5 (with_is_running true default_processor))).
Proof.
  split; [reflexivity|].
  apply (key_presses_keep_ranges
           [Some "2"; Some "2"; None; Some "6"; Some "3"; Some "R"; Some "1";
            Some "x"; Some "5"]%char "2"%char
           (with_params 0.98 1.0 1.5 (with_is_running true default_processor))).
  reflexivity.
Defined.

(** C7, as the specification states it, fails on a block of two channels:
    NumPy operations are logged between the acquisition of the lock and its
    release. *)
Lemma lock_held_across_mix :
  no_compute_while_locked false
    (log_of (process_audio (stereo_frame 0.8 0.3) default_processor)) = false.
Proof. reflexivity. Qed.

(** C7, amended.  On a block of at least two channels [process_audio]
    acquires the parameter lock once, and while it holds the lock it does
    the subtraction, the addition, the halving, the three scalings and the
    sum of the two streams, reading each parameter where it is used; it
    releases the lock before the limiter and the stacking of the two output
    channels.  On a block of fewer channels it does not take the lock.  The
    lock is never held when [process_audio] ends. *)
Theorem process_audio_lock_scope (s : processor) (audio_data : ndarray) :
  log_of (process_audio audio_data s)
    = (if (2 <=? channels audio_data)%nat
       then Acquire :: locked_mix_log ++ [Release; Compute OpClip; Compute OpColumnStack]
       else if (channels audio_data =? 0)%nat then []
       else [Compute OpColumnStack]) /\
  lock_held_after false (log_of (process_audio audio_data s)) = false.
Proof.
  destruct audio_data as [v|a]; cbn [channels].
  - rewrite process_audio_1d_eq. split; reflexivity.
  - destruct (ncols a) as [|[|n]] eqn:Hc.
    + rewrite process_audio_zero_channels_eq by assumption. split; reflexivity.
    + rewrite process_audio_one_channel_eq by assumption. split; reflexivity.
    + rewrite process_audio_stereo_eq by lia. split; reflexivity.
Qed.

(** C8. Whenever [process_audio] raises on the copy of the input block,
    [input_callback] returns normally: the exception is caught and printed,
    nothing is pushed, and the processor, its transfer buffer included, is
    as it was. *)
Theorem input_callback_catches (s : processor) (indata : ndarray) (frames : nat)
        (time : Z) (status : bool) (e : exn) :
  outcome_of (process_audio (np_copy indata) s) = Raise e ->
  outcome_of (input_callback indata frames time status s) = Ok tt /\
  state_of (input_callback indata frames time status s) = s /\
  audio_queue (state_of (input_callback indata frames time status s)) = audio_queue s /\
  log_of (input_callback indata frames time status s)
    = (if status then [Print MsgInputStatus] else []) ++ [Print (MsgProcessingError e)].
Proof.
  intros Hr.
  destruct (process_audio_cases s (np_copy indata)) as [(out & t & Heq)|Heq];
    rewrite Heq in Hr; cbn in Hr; [discriminate|]. injection Hr as <-.
  rewrite (input_callback_raise_eq s indata frames time status IndexError [] Heq).
  repeat split.
Qed.

Lemma input_callback_catches_witness :
  outcome_of (process_audio (np_copy zero_channel_block) default_processor)
    = Raise IndexError /\
  outcome_of (input_callback zero_channel_block 1 0 false default_processor) = Ok tt /\
  state_of (input_callback zero_channel_block 1 0 false default_processor)
    = default_processor /\
  audio_queue (state_of (input_callback zero_channel_block 1 0 false default_processor))
    = audio_queue default_processor /\
  log_of (input_callback zero_channel_block 1 0 false default_processor)
    = [] ++ [Print (MsgProcessingError IndexError)].
Proof.
  split; [reflexivity|].
  apply (input_callback_catches default_processor zero_channel_block 1 0 false IndexError).
  reflexivity.
Defined.

(** C9. Whatever the three parameters were, the reset key ([r], typed in
    either case) sets [centerAttenuation = 0.6], [vocalRemovalMix = 1.0] and
    [masterVolume = 1.0]. *)
Theorem reset_restores_defaults (s : processor) :
  params_of (state_of (handle_key "r" s)) = (0.6, 1.0, 1.0)%float /\
  params_of (state_of (key_press "r" s)) = (0.6, 1.0, 1.0)%float /\
  params_of (state_of (key_press "R" s)) = (0.6, 1.0, 1.0)%float.
Proof. repeat split. Qed.

(** C10. Each key changes its own attribute only: [1] and [2] leave all
    but [center_attenuation] as it was, [3] and [4] all but
    [vocal_removal_mix], [5] and [6] all but [master_volume], [q] all but
    [is_running], which no other key changes; [r] changes the three
    parameters only; any other key changes nothing.  No key, and no run of
    [keyboard_listener], changes the transfer buffer. *)
Theorem handle_key_frame (key : ascii) (polls : list (option ascii)) (s : processor) :
  let s' := state_of (handle_key key s) in
  audio_queue s' = audio_queue s /\
  sample_rate s' = sample_rate s /\
  block_size s' = block_size s /\
  is_running s' = (if (key =? "q")%char then false else is_running s) /\
  (if (key =? "1")%char || (key =? "2")%char then
     vocal_removal_mix s' = vocal_removal_mix s /\ master_volume s' = master_volume s
   else if (key =? "3")%char || (key =? "4")%char then
     center_attenuation s' = center_attenuation s /\ master_volume s' = master_volume s
   else if (key =? "5")%char || (key =? "6")%char then
     center_attenuation s' = center_attenuation s /\
     vocal_removal_mix s' = vocal_removal_mix s
   else if (key =? "q")%char then params_of s' = params_of s
   else if is_recognized key then True
   else s' = s) /\
  audio_queue (state_of (keyboard_listener polls s)) = audio_queue s.
Proof.
  assert (HL : audio_queue (state_of (keyboard_listener polls s)) = audio_queue s).
  { apply (keyboard_listener_keeps (fun s0 => audio_queue s0 = audio_queue s)); [|reflexivity].
    intros k s0 H. now rewrite handle_key_audio_queue. }
  cbv zeta. rewrite handle_key_state. cbv zeta. unfold is_recognized. cbn [existsb].
  repeat (match goal with |- context [(key =? ?c)%char] =>
            destruct (Ascii.eqb_spec key c) as [->|?] end;
          [cbn; repeat split; exact HL|]).
  cbn. repeat split; exact HL.
Qed.

(* ================================================================== *)
(** * Further properties of the code *)

(** ** process_audio *)

Lemma process_audio_stereo_wf (s : processor) (a : matrix) :
  matrix_wf {| ncols := 2;
               rows := map (fun r => [mix_formula s (row_get 0 r) (row_get 1 r);
                                      mix_formula s (row_get 0 r) (row_get 1 r)])
                           (rows a) |}.
Proof.
  unfold matrix_wf. cbn [ncols rows]. apply Forall_forall.
  intros r Hr. apply in_map_iff in Hr as (x & <- & _). reflexivity.
Qed.

Lemma duplicated_wf (v : vec) :
  matrix_wf {| ncols := 2; rows := map (fun x => [x; x]) v |}.
Proof.
  unfold matrix_wf. cbn [ncols rows]. apply Forall_forall.
  intros r Hr. apply in_map_iff in Hr as (x & <- & _). reflexivity.
Qed.

(** X1. [process_audio] fails on exactly the blocks without a channel (2-D
    with no column, whatever the number of frames), with [IndexError]; on
    every other block it returns a well-formed block of two columns and as
    many frames as the input.  In both cases the processor is unchanged. *)
Theorem process_audio_fails_iff_no_channel (s : processor) (audio_data : ndarray) :
  state_of (process_audio audio_data s) = s /\
  if (channels audio_data =? 0)%nat
  then process_audio audio_data s = (Raise IndexError, s, [])
  else exists out,
         outcome_of (process_audio audio_data s) = Ok out /\
         ncols out = 2%nat /\
         length (rows out) = frames_of audio_data /\
         matrix_wf out.
Proof.
  destruct audio_data as [v|a]; cbn [channels frames_of].
  - rewrite process_audio_1d_eq. split; [reflexivity|]. cbn [Nat.eqb].
    eexists. split; [reflexivity|]. cbn [ncols rows].
    rewrite length_map. auto using duplicated_wf.
  - destruct (ncols a) as [|[|n]] eqn:Hc; cbn [Nat.eqb].
    + rewrite process_audio_zero_channels_eq by assumption. split; reflexivity.
    + rewrite process_audio_one_channel_eq by assumption. split; [reflexivity|].
      eexists. split; [reflexivity|]. cbn [ncols rows]. rewrite length_map.
      repeat split. rewrite <- (map_map (row_get 0) (fun x => [x; x])).
      apply duplicated_wf.
    + rewrite process_audio_stereo_eq by lia. split; [reflexivity|].
      eexists. split; [reflexivity|]. cbn [ncols rows]. rewrite length_map.
      auto using process_audio_stereo_wf.
Qed.

(** X2. On blocks of at least two channels the result of [process_audio]
    is a function of channel 0, channel 1 and the three mix parameters:
    further channels, the sample rate, the block size, [is_running] and the
    queue have no influence. *)
Theorem process_audio_depends_on_two_channels (s s' : processor) (a a' : matrix) :
  (2 <= ncols a)%nat -> (2 <= ncols a')%nat ->
  map (row_get 0) (rows a) = map (row_get 0) (rows a') ->
  map (row_get 1) (rows a) = map (row_get 1) (rows a') ->
  params_of s = params_of s' ->
  outcome_of (process_audio (Arr2 a) s) = outcome_of (process_audio (Arr2 a') s').
Proof.
  intros Ha Ha' H0 H1 Hp.
  rewrite !process_audio_stereo_eq by assumption. cbn [outcome_of fst].
  do 2 f_equal.
  assert (Hmix : forall L R, mix_formula s L R = mix_formula s' L R).
  { intros L R. unfold mix_formula, raw_mix. unfold params_of in Hp.
    injection Hp as -> -> ->. reflexivity. }
  transitivity (map (fun lr => [mix_formula s (fst lr) (snd lr);
                                mix_formula s (fst lr) (snd lr)])
                    (combine (map (row_get 0) (rows a)) (map (row_get 1) (rows a)))).
  - now rewrite combine_map_diag, map_map.
  - rewrite H0, H1, combine_map_diag, map_map.
    apply map_ext. intros r. cbn [fst snd]. now rewrite Hmix.
Qed.

Lemma process_audio_depends_on_two_channels_witness :
  outcome_of (process_audio
                (Arr2 {| ncols := 3;
                         rows := [[f32_of_float 0.8; f32_of_float 0.3; f32_of_float 9.0]] |})
                default_processor)
  = outcome_of (process_audio (stereo_frame 0.8 0.3)
                  (with_is_running true default_processor)).
Proof.
  apply process_audio_depends_on_two_channels;
    [cbn [ncols]; lia | cbn [ncols]; lia | reflexivity | reflexivity | reflexivity].
Defined.

(** ** The two callbacks and the queue *)

Lemma map_nth_seq {A} (l : list A) (d : A) :
  map (fun i => nth i l d) (seq 0 (length l)) = l.
Proof.
  induction l as [|x l IH]; [reflexivity|].
  cbn [length seq map nth]. f_equal.
  rewrite <- seq_shift, map_map. exact IH.
Qed.

(** [out[:] = data] for [data] of the shape of [out]: a plain copy. *)
Lemma np_assign_fits (out data : matrix) (s : processor) :
  fits out data -> np_assign out data s = (Ok data, s, [Compute OpAssign]).
Proof.
  intros [Hc Hn]. unfold np_assign. rewrite Hc, Hn, !Nat.eqb_refl. cbn [orb andb].
  unfold bind, emit, ret. cbn [app]. do 2 f_equal.
  destruct data as [c r]. cbn [ncols rows] in *. subst c.
  rewrite <- Hn, map_nth_seq. reflexivity.
Qed.

(** [out[:] = data] when [data] cannot be broadcast to [out]. *)
Lemma np_assign_mismatch (out data : matrix) (s : processor) :
  (length (rows data) <> length (rows out) /\ length (rows data) <> 1%nat) \/
  (ncols data <> ncols out /\ ncols data <> 1%nat) ->
  np_assign out data s = (Raise ValueError, s, []).
Proof.
  intros H. unfold np_assign.
  destruct H as [[H1 H2]|[H1 H2]];
    apply Nat.eqb_neq in H1, H2; rewrite H1, H2; cbn [orb andb];
    rewrite ?andb_false_r; reflexivity.
Qed.

Lemma np_assign_cases (out data : matrix) (s : processor) :
  (exists m, np_assign out data s = (Ok m, s, [Compute OpAssign])) \/
  np_assign out data s = (Raise ValueError, s, []).
Proof.
  unfold np_assign. destruct (_ && _); [left; eexists|right]; reflexivity.
Qed.

Lemma output_callback_head_eq (outdata data : matrix) (rest : list matrix)
      (frames : nat) (time : Z) (status : bool) (s : processor) :
  items (audio_queue s) = data :: rest ->
  output_callback outdata frames time status s
  = let s1 := with_audio_queue s {| maxsize := maxsize (audio_queue s); items := rest |} in
    let '(r, s2, t) := np_assign outdata data s1 in
    (r, s2, (if status then [Print MsgOutputStatus] else []) ++ t).
Proof.
  intros Hq. unfold output_callback, bind, try_except, get_nowait.
  destruct status; cbn [print emit ret]; rewrite Hq; cbv zeta;
    destruct (np_assign_cases outdata data
                (with_audio_queue s
                   {| maxsize := maxsize (audio_queue s); items := rest |}))
      as [[m ->]| ->]; reflexivity.
Qed.

Lemma call_output_in_order (calls : list (matrix * nat * Z * bool)) :
  forall (s : processor) (played : list matrix) (rest : list matrix),
  items (audio_queue s) = played ++ rest ->
  Forall2 (fun c d => fits (outdata_of c) d) calls played ->
  exists s' t,
    call_each call_output calls s = (Ok played, s', t) /\
    items (audio_queue s') = rest /\
    same_but_items s s'.
Proof.
  induction calls as [|[[[outdata frames] time] status] calls IH];
    intros s played rest Hq Hfit; inversion Hfit as [|c d cs ds Hcd Hrest]; subst.
  - exists s, []. cbn. repeat split; auto.
  - cbn [call_each call_output]. unfold bind at 1.
    rewrite (output_callback_head_eq outdata d (ds ++ rest)) by exact Hq.
    cbv zeta. rewrite np_assign_fits by exact Hcd.
    destruct (IH (with_audio_queue s
                    {| maxsize := maxsize (audio_queue s); items := ds ++ rest |})
                 ds rest eq_refl Hrest) as (s' & t & Heq & Hi & Hs).
    unfold bind at 1. rewrite Heq. cbn [ret]. do 2 eexists.
    split; [reflexivity|]. split; [exact Hi|].
    destruct Hs as (H1 & H2 & H3 & H4 & H5). repeat split; assumption.
Qed.

(** X3. The queue is first in, first out: while each queued block has the
    shape of the output buffer it meets, successive calls of
    [output_callback] return the queued blocks themselves, oldest first,
    each copied whole into the buffer, and remove them from the queue;
    nothing else of the processor changes. *)
Theorem output_callbacks_play_in_order (s : processor) (calls : list (matrix * nat * Z * bool))
        (played rest : list matrix) :
  items (audio_queue s) = played ++ rest ->
  Forall2 (fun c d => fits (outdata_of c) d) calls played ->
  outcome_of (call_each call_output calls s) = Ok played /\
  items (audio_queue (state_of (call_each call_output calls s))) = rest /\
  same_but_items s (state_of (call_each call_output calls s)).
Proof.
  intros Hq Hfit.
  destruct (call_output_in_order calls s played rest Hq Hfit) as (s' & t & -> & Hi & Hs).
  auto.
Qed.

Lemma output_callbacks_play_in_order_witness :
  outcome_of
    (call_each call_output
       [(np_zeros 1 2, 1%nat, 0%Z, false); (np_zeros 2 2, 2%nat, 1%Z, false)]
       (with_audio_queue default_processor
          {| maxsize := 20;
             items := [np_fill (np_zeros 1 2) (f32_of_float 0.5); np_zeros 2 2;
                       np_zeros 3 2] |}))
  = Ok [np_fill (np_zeros 1 2) (f32_of_float 0.5); np_zeros 2 2] /\
  items (audio_queue (state_of
    (call_each call_output
       [(np_zeros 1 2, 1%nat, 0%Z, false); (np_zeros 2 2, 2%nat, 1%Z, false)]
       (with_audio_queue default_processor
          {| maxsize := 20;
             items := [np_fill (np_zeros 1 2) (f32_of_float 0.5); np_zeros 2 2;
                       np_zeros 3 2] |}))))
  = [np_zeros 3 2].
Proof.
  pose proof (output_callbacks_play_in_order
                (with_audio_queue default_processor
                   {| maxsize := 20;
                      items := [np_fill (np_zeros 1 2) (f32_of_float 0.5); np_zeros 2 2;
                                np_zeros 3 2] |})
                [(np_zeros 1 2, 1%nat, 0%Z, false); (np_zeros 2 2, 2%nat, 1%Z, false)]
                [np_fill (np_zeros 1 2) (f32_of_float 0.5); np_zeros 2 2]
                [np_zeros 3 2] eq_refl) as H.
  assert (Hfit : Forall2 (fun c d => fits (outdata_of c) d)
                   [(np_zeros 1 2, 1%nat, 0%Z, false); (np_zeros 2 2, 2%nat, 1%Z, false)]
                   [np_fill (np_zeros 1 2) (f32_of_float 0.5); np_zeros 2 2]).
  { repeat constructor. }
  destruct (H Hfit) as (H1 & H2 & _). split; assumption.
Defined.

(** X4. When the oldest queued block cannot be broadcast to the output
    buffer (its frame count, or its channel count, differs from the
    buffer's and is not 1), [output_callback] raises [ValueError] to the
    audio runtime; the block has already been taken from the queue and is
    lost, and nothing is written to the buffer. *)
Theorem output_callback_shape_mismatch (s : processor) (outdata data : matrix)
        (rest : list matrix) (frames : nat) (time : Z) (status : bool) :
  items (audio_queue s) = data :: rest ->
  (length (rows data) <> length (rows outdata) /\ length (rows data) <> 1%nat) \/
  (ncols data <> ncols outdata /\ ncols data <> 1%nat) ->
  outcome_of (output_callback outdata frames time status s) = Raise ValueError /\
  items (audio_queue (state_of (output_callback outdata frames time status s))) = rest /\
  log_of (output_callback outdata frames time status s)
    = (if status then [Print MsgOutputStatus] else []).
Proof.
  intros Hq Hbad.
  rewrite (output_callback_head_eq outdata data rest) by exact Hq. cbv zeta.
  rewrite np_assign_mismatch by exact Hbad. cbn [outcome_of state_of log_of fst snd].
  rewrite app_nil_r. auto.
Qed.

Lemma output_callback_shape_mismatch_witness :
  outcome_of (output_callback (np_zeros 4 2) 4 0 false
                (with_audio_queue default_processor
                   {| maxsize := 20; items := [np_zeros 3 2; np_zeros 4 2] |}))
    = Raise ValueError /\
  items (audio_queue (state_of
    (output_callback (np_zeros 4 2) 4 0 false
       (with_audio_queue default_processor
          {| maxsize := 20; items := [np_zeros 3 2; np_zeros 4 2] |}))))
    = [np_zeros 4 2].
Proof.
  pose proof (output_callback_shape_mismatch
                (with_audio_queue default_processor
                   {| maxsize := 20; items := [np_zeros 3 2; np_zeros 4 2] |})
                (np_zeros 4 2) (np_zeros 3 2) [np_zeros 4 2] 4 0 false eq_refl) as H.
  assert (Hbad : (length (rows (np_zeros 3 2)) <> length (rows (np_zeros 4 2)) /\
                  length (rows (np_zeros 3 2)) <> 1%nat) \/
                 (ncols (np_zeros 3 2) <> ncols (np_zeros 4 2) /\
                  ncols (np_zeros 3 2) <> 1%nat)).
  { left. cbn. split; discriminate. }
  destruct (H Hbad) as (H1 & H2 & _). split; assumption.
Defined.

Lemma queue_empty_not_full (q : Queue) : items q = [] -> queue_full q = false.
Proof.
  intros He. unfold queue_full. rewrite He. cbn [length].
  destruct (maxsize q); reflexivity.
Qed.

(** X5. Capture and playback compose: on an empty queue, a call of
    [input_callback] on a block that [process_audio] accepts, followed by a
    call of [output_callback] with a buffer of the shape of the processed
    block, plays exactly what [process_audio] returns for the block, and
    leaves the queue empty. *)
Theorem capture_then_playback (s : processor) (indata : ndarray) (out outdata : matrix)
        (frames frames' : nat) (time time' : Z) (status status' : bool) :
  items (audio_queue s) = [] ->
  outcome_of (process_audio (np_copy indata) s) = Ok out ->
  fits outdata out ->
  outcome_of ((input_callback indata frames time status ;;
               output_callback outdata frames' time' status') s) = Ok out /\
  items (audio_queue (state_of ((input_callback indata frames time status ;;
                                 output_callback outdata frames' time' status') s))) = [].
Proof.
  intros He Hout Hfit.
  destruct (process_audio_cases s (np_copy indata)) as [(out' & t & Heq)|Heq];
    rewrite Heq in Hout; cbn in Hout; [|discriminate]. injection Hout as ->.
  unfold bind.
  rewrite (input_callback_ok_eq s indata frames time status out t Heq).
  rewrite queue_empty_not_full by assumption.
  rewrite (output_callback_head_eq outdata out []).
  - cbv zeta. rewrite np_assign_fits by assumption. split; reflexivity.
  - cbn. now rewrite He.
Qed.

Lemma capture_then_playback_witness :
  outcome_of ((input_callback (stereo_frame 0.8 0.3) 1 0 false ;;
               output_callback (np_zeros 1 2) 1 0 false) (with_params 0.0 1.0 1.0 default_processor))
  = Ok {| ncols := 2; rows := [[f32_of_float 0.5; f32_of_float 0.5]] |} /\
  items (audio_queue (state_of ((input_callback (stereo_frame 0.8 0.3) 1 0 false ;;
                                 output_callback (np_zeros 1 2) 1 0 false)
                                  (with_params 0.0 1.0 1.0 default_processor)))) = [].
Proof.
  apply (capture_then_playback (with_params 0.0 1.0 1.0 default_processor) (stereo_frame 0.8 0.3)
           {| ncols := 2; rows := [[f32_of_float 0.5; f32_of_float 0.5]] |}
           (np_zeros 1 2) 1 1 0 0 false false);
    [reflexivity | vm_compute; reflexivity | split; reflexivity].
Defined.

Lemma input_callback_items (s : processor) (indata : ndarray) (frames : nat)
      (time : Z) (status : bool) :
  same_but_items s (state_of (input_callback indata frames time status s)) /\
  items (audio_queue (state_of (input_callback indata frames time status s)))
  = items (audio_queue s) ++
    match outcome_of (process_audio (np_copy indata) s) with
    | Ok out => if queue_full (audio_queue s) then [] else [out]
    | _ => []
    end.
Proof.
  destruct (input_callback_state s indata frames time status) as [_ ->].
  destruct (outcome_of (process_audio (np_copy indata) s)) as [out|e|];
    try (rewrite app_nil_r; repeat split).
  destruct (queue_full (audio_queue s)).
  - rewrite app_nil_r. repeat split.
  - repeat split.
Qed.

(** X6. [input_callback] returns normally on every block, whatever its
    shape and whatever the state of the queue.  Of the processor it
    changes only the contents of the queue, to which it appends the block
    [process_audio] returns if there is one and the queue is not full, and
    nothing otherwise. *)
Theorem input_callback_appends_at_most_one (s : processor) (indata : ndarray)
        (frames : nat) (time : Z) (status : bool) :
  outcome_of (input_callback indata frames time status s) = Ok tt /\
  same_but_items s (state_of (input_callback indata frames time status s)) /\
  items (audio_queue (state_of (input_callback indata frames time status s)))
  = items (audio_queue s) ++
    match outcome_of (process_audio (np_copy indata) s) with
    | Ok out => if queue_full (audio_queue s) then [] else [out]
    | _ => []
    end.
Proof.
  split; [apply input_callback_state | apply input_callback_items].
Qed.

Lemma output_callback_state (s : processor) (outdata : matrix) (frames : nat)
      (time : Z) (status : bool) :
  state_of (output_callback outdata frames time status s)
  = match items (audio_queue s) with
    | [] => s
    | _ :: rest =>
        with_audio_queue s {| maxsize := maxsize (audio_queue s); items := rest |}
    end.
Proof.
  destruct (items (audio_queue s)) as [|data rest] eqn:Hq.
  - now rewrite output_callback_empty_eq.
  - rewrite (output_callback_head_eq outdata data rest) by assumption. cbv zeta.
    destruct (np_assign_cases outdata data
                (with_audio_queue s
                   {| maxsize := maxsize (audio_queue s); items := rest |}))
      as [[m ->]| ->]; reflexivity.
Qed.

(** ** The start of start_processing *)

Lemma for_each_put {A} (xs : list A) (x : matrix) :
  forall s : processor,
  let k := if (maxsize (audio_queue s) =? 0)%nat then length xs
           else Nat.min (length xs)
                        (maxsize (audio_queue s) - length (items (audio_queue s))) in
  outcome_of (for_each xs (fun _ => put x) s)
    = (if (k =? length xs)%nat then Ok tt else Blocks) /\
  items (audio_queue (state_of (for_each xs (fun _ => put x) s)))
    = items (audio_queue s) ++ repeat x k /\
  same_but_items s (state_of (for_each xs (fun _ => put x) s)) /\
  log_of (for_each xs (fun _ => put x) s) = [].
Proof.
  induction xs as [|y xs IH]; intros s; cbv zeta.
  - cbn [for_each length]. replace (if (_ =? 0)%nat then 0%nat else _) with 0%nat
      by (destruct (_ =? 0)%nat; [reflexivity | now rewrite Nat.min_0_l]).
    cbn. rewrite app_nil_r. repeat split.
  - cbn [for_each length]. unfold bind, put, queue_full.
    destruct (maxsize (audio_queue s)) as [|cap] eqn:Hcap.
    + cbn [Nat.ltb Nat.leb andb Nat.eqb].
      specialize (IH (with_audio_queue s (queue_append (audio_queue s) x))).
      cbv zeta in IH. cbn [with_audio_queue audio_queue queue_append maxsize items] in IH.
      rewrite Hcap in IH. cbn [Nat.eqb] in IH. rewrite Nat.eqb_refl in IH.
      destruct IH as (Ho & Hi & Hs & Hl).
      destruct (for_each xs _ _) as [[r s'] t].
      cbn [outcome_of state_of log_of fst snd] in *. subst r t.
      rewrite Nat.eqb_refl, Hi, <- app_assoc. repeat split; apply Hs.
    + cbn [Nat.eqb]. replace (0 <? S cap)%nat with true by reflexivity. cbn [andb].
      destruct (Nat.leb_spec (S cap) (length (items (audio_queue s)))) as [Hfull|Hroom].
      * replace (S cap - length (items (audio_queue s)))%nat with 0%nat by lia.
        rewrite Nat.min_0_r. cbn. rewrite app_nil_r. repeat split.
      * specialize (IH (with_audio_queue s (queue_append (audio_queue s) x))).
        cbv zeta in IH. cbn [with_audio_queue audio_queue queue_append maxsize items] in IH.
        rewrite Hcap in IH. cbn [Nat.eqb] in IH. rewrite length_app in IH. cbn [length] in IH.
        destruct IH as (Ho & Hi & Hs & Hl).
        destruct (for_each xs _ _) as [[r s'] t].
        cbn [outcome_of state_of log_of fst snd] in *. subst r t.
        replace (Nat.min (S (length xs)) (S cap - length (items (audio_queue s))))
          with (S (Nat.min (length xs)
                     (S cap - (length (items (audio_queue s)) + 1)))) by lia.
        cbn [Nat.eqb repeat]. rewrite Hi, <- app_assoc. repeat split; apply Hs.
Qed.

Lemma display_controls_state (s : processor) : state_of (display_controls s) = s.
Proof. reflexivity. Qed.

Lemma prologue_eq (s : processor) :
  outcome_of (start_processing_prologue s)
    = outcome_of (for_each (seq 0 10) (fun _ => put (np_zeros (block_size s) 2))
                    (with_is_running true s)) /\
  state_of (start_processing_prologue s)
    = state_of (for_each (seq 0 10) (fun _ => put (np_zeros (block_size s) 2))
                  (with_is_running true s)).
Proof.
  cbv [start_processing_prologue bind display_controls get_param print emit
       set_is_running get_self ret].
  cbn [block_size].
  change {| sample_rate := sample_rate s; block_size := block_size s; is_running := true;
            center_attenuation := center_attenuation s;
            vocal_removal_mix := vocal_removal_mix s;
            master_volume := master_volume s; audio_queue := audio_queue s |}
    with (with_is_running true s).
  destruct (for_each _ _ _) as [[[u|e|] s'] t]; split; reflexivity.
Qed.

Lemma prologue_spec (s : processor) :
  let k := if (maxsize (audio_queue s) =? 0)%nat then 10%nat
           else Nat.min 10 (maxsize (audio_queue s) - length (items (audio_queue s))) in
  outcome_of (start_processing_prologue s)
    = (if (k =? 10)%nat then Ok tt else Blocks) /\
  items (audio_queue (state_of (start_processing_prologue s)))
    = items (audio_queue s) ++ repeat (np_zeros (block_size s) 2) k /\
  is_running (state_of (start_processing_prologue s)) = true /\
  sample_rate (state_of (start_processing_prologue s)) = sample_rate s /\
  block_size (state_of (start_processing_prologue s)) = block_size s /\
  params_of (state_of (start_processing_prologue s)) = params_of s /\
  maxsize (audio_queue (state_of (start_processing_prologue s))) = maxsize (audio_queue s).
Proof.
  destruct (prologue_eq s) as [-> ->].
  pose proof (for_each_put (seq 0 10) (np_zeros (block_size s) 2)
                (with_is_running true s)) as H.
  cbv zeta in H. rewrite length_seq in H.
  cbn [with_is_running audio_queue] in H.
  destruct H as (Ho & Hi & (H1 & H2 & H3 & H4 & H5) & _).
  cbv zeta. rewrite Ho, Hi. repeat split; assumption.
Qed.

(** X7. The start of [start_processing] on a queue with room for ten more
    blocks (or unbounded): it returns with [is_running] set, ten blocks of
    silence of [block_size] frames and two channels appended behind what
    the queue held, and the parameters, the sample rate and the block size
    as they were. *)
Theorem prologue_prefills_silence (s : processor) :
  maxsize (audio_queue s) = 0%nat \/
  (length (items (audio_queue s)) + 10 <= maxsize (audio_queue s))%nat ->
  outcome_of (start_processing_prologue s) = Ok tt /\
  items (audio_queue (state_of (start_processing_prologue s)))
    = items (audio_queue s) ++ repeat (np_zeros (block_size s) 2) 10 /\
  is_running (state_of (start_processing_prologue s)) = true /\
  params_of (state_of (start_processing_prologue s)) = params_of s /\
  sample_rate (state_of (start_processing_prologue s)) = sample_rate s /\
  block_size (state_of (start_processing_prologue s)) = block_size s.
Proof.
  intros Hroom. pose proof (prologue_spec s) as H. cbv zeta in H.
  assert (Hk : (if (maxsize (audio_queue s) =? 0)%nat then 10%nat
                else Nat.min 10 (maxsize (audio_queue s)
                                 - length (items (audio_queue s)))) = 10%nat).
  { destruct (Nat.eqb_spec (maxsize (audio_queue s)) 0); [reflexivity|].
    destruct Hroom; [contradiction|lia]. }
  rewrite Hk in H. destruct H as (Ho & Hi & Hr & Hsr & Hbs & Hp & _).
  repeat split; assumption.
Qed.

Lemma prologue_prefills_silence_witness :
  outcome_of (start_processing_prologue default_processor) = Ok tt /\
  items (audio_queue (state_of (start_processing_prologue default_processor)))
    = items (audio_queue default_processor)
      ++ repeat (np_zeros (block_size default_processor) 2) 10.
Proof.
  pose proof (prologue_prefills_silence default_processor) as H.
  assert (Hroom : maxsize (audio_queue default_processor) = 0%nat \/
                  (length (items (audio_queue default_processor)) + 10
                   <= maxsize (audio_queue default_processor))%nat).
  { right. cbn. lia. }
  destruct (H Hroom) as (H1 & H2 & _). split; assumption.
Defined.

(** X8. The start of [start_processing] on a bounded queue with fewer than
    ten free places (a processor started again with blocks left in its
    queue) never returns: the blocking [put] fills the queue to its
    capacity and then waits, with [is_running] already set and no stream
    open yet to take a block out. *)
Theorem prologue_blocks_without_room (s : processor) :
  (0 < maxsize (audio_queue s))%nat ->
  (maxsize (audio_queue s) < length (items (audio_queue s)) + 10)%nat ->
  outcome_of (start_processing_prologue s) = Blocks /\
  items (audio_queue (state_of (start_processing_prologue s)))
    = items (audio_queue s)
      ++ repeat (np_zeros (block_size s) 2)
                (maxsize (audio_queue s) - length (items (audio_queue s))) /\
  is_running (state_of (start_processing_prologue s)) = true.
Proof.
  intros Hpos Hfew. pose proof (prologue_spec s) as H. cbv zeta in H.
  destruct (Nat.eqb_spec (maxsize (audio_queue s)) 0) as [|_]; [lia|].
  replace (Nat.min 10 (maxsize (audio_queue s) - length (items (audio_queue s))))
    with (maxsize (audio_queue s) - length (items (audio_queue s)))%nat in H by lia.
  destruct H as (Ho & Hi & Hr & _).
  replace (_ =? 10)%nat with false in Ho by (symmetry; apply Nat.eqb_neq; lia).
  auto.
Qed.

Lemma prologue_blocks_without_room_witness :
  outcome_of (start_processing_prologue
                (with_audio_queue default_processor
                   {| maxsize := 20; items := repeat (np_zeros 1 2) 15 |})) = Blocks /\
  length (items (audio_queue (state_of
    (start_processing_prologue
       (with_audio_queue default_processor
          {| maxsize := 20; items := repeat (np_zeros 1 2) 15 |}))))) = 20%nat.
Proof.
  pose proof (prologue_blocks_without_room
                (with_audio_queue default_processor
                   {| maxsize := 20; items := repeat (np_zeros 1 2) 15 |})) as H.
  assert (Hpos : (0 < maxsize (audio_queue
                    (with_audio_queue default_processor
                       {| maxsize := 20; items := repeat (np_zeros 1 2) 15 |})))%nat)
    by (cbn; lia).
  assert (Hfew : (maxsize (audio_queue
                    (with_audio_queue default_processor
                       {| maxsize := 20; items := repeat (np_zeros 1 2) 15 |}))
                  < length (items (audio_queue
                      (with_audio_queue default_processor
                         {| maxsize := 20; items := repeat (np_zeros 1 2) 15 |}))) + 10)%nat)
    by (cbn; lia).
  destruct (H Hpos Hfew) as (H1 & H2 & _). split; [exact H1|].
  rewrite H2. reflexivity.
Defined.

(** ** Sessions *)

Lemma params_in_range_params_of (s s' : processor) :
  params_of s' = params_of s -> params_in_range s' = params_in_range s.
Proof.
  unfold params_of, params_in_range. intros H. injection H as -> -> ->. reflexivity.
Qed.

Lemma handle_key_sizes (key : ascii) (s : processor) :
  sample_rate (state_of (handle_key key s)) = sample_rate s /\
  block_size (state_of (handle_key key s)) = block_size s.
Proof.
  rewrite handle_key_state. cbv zeta.
  repeat next_key key ltac:(split; reflexivity). split; reflexivity.
Qed.

Section SessionInvariant.

Variable cap : nat.
Variable sr : Z.
Variable bs : nat.
Hypothesis cap_positive : (0 < cap)%nat.

Local Abbreviation inv := (session_inv cap sr bs).

Lemma handle_key_keeps_inv (key : ascii) (s : processor) :
  inv s -> inv (state_of (handle_key key s)).
Proof.
  intros (Hp & Hm & Hl & Hsr & Hbs). unfold session_inv.
  rewrite handle_key_audio_queue.
  destruct (handle_key_sizes key s) as [-> ->].
  auto using handle_key_in_range.
Qed.

Lemma state_after_keeps_inv (s : processor) (c : call) :
  inv s -> inv (state_after s c).
Proof.
  intros Hinv. destruct c as [indata frames time status|outdata frames time status|poll|];
    cbn [state_after].
  - destruct Hinv as (Hp & Hm & Hl & Hsr & Hbs).
    destruct (input_callback_items s indata frames time status)
      as ((H1 & H2 & _ & H4 & H5) & Hi).
    unfold session_inv. rewrite Hi, H1, H2, H5, length_app, (params_in_range_params_of _ _ H4).
    repeat split; try assumption.
    destruct (outcome_of (process_audio (np_copy indata) s)); cbn [length]; try lia.
    unfold queue_full. rewrite Hm.
    destruct (Nat.leb_spec cap (length (items (audio_queue s))));
      rewrite ?andb_false_r, ?andb_true_r; cbn [length]; try lia.
    apply Nat.ltb_lt in cap_positive as ->. cbn [length]. lia.
  - destruct Hinv as (Hp & Hm & Hl & Hsr & Hbs).
    rewrite output_callback_state. unfold session_inv.
    destruct (items (audio_queue s)) as [|d rest] eqn:Hq.
    + rewrite Hq. auto.
    + cbn in *. repeat split; try assumption. lia.
  - apply (keyboard_listener_keeps inv handle_key_keeps_inv). exact Hinv.
  - destruct Hinv as (Hp & Hm & Hl & Hsr & Hbs).
    pose proof (prologue_spec s) as H. cbv zeta in H.
    destruct H as (_ & Hi & _ & H1 & H2 & H4 & H5).
    unfold session_inv. rewrite Hi, H1, H2, H5, length_app, repeat_length,
      (params_in_range_params_of _ _ H4).
    repeat split; try assumption.
    destruct (Nat.eqb_spec (maxsize (audio_queue s)) 0); lia.
Qed.

Lemma session_keeps_inv (calls : list call) (s : processor) :
  inv s -> inv (session calls s).
Proof.
  revert s. induction calls as [|c calls IH]; intros s H; [exact H|].
  apply IH, state_after_keeps_inv, H.
Qed.

End SessionInvariant.

(** X9. Whatever calls are made on a processor after its construction, in
    whatever order and however each one ends (the two callbacks on any
    blocks, any answers of the keyboard, the start of [start_processing]),
    the three parameters stay in their ranges, the queue never holds more
    than its 20 blocks, and the sample rate and block size stay those of
    the construction. *)
Theorem session_invariant (calls : list call) (sample_rate0 : Z) (block_size0 : nat) :
  params_in_range (session calls (SmoothAudioProcessor sample_rate0 block_size0)) = true /\
  maxsize (audio_queue (session calls (SmoothAudioProcessor sample_rate0 block_size0)))
    = 20%nat /\
  (length (items (audio_queue
             (session calls (SmoothAudioProcessor sample_rate0 block_size0)))) <= 20)%nat /\
  sample_rate (session calls (SmoothAudioProcessor sample_rate0 block_size0))
    = sample_rate0 /\
  block_size (session calls (SmoothAudioProcessor sample_rate0 block_size0))
    = block_size0.
Proof.
  apply (session_keeps_inv 20 sample_rate0 block_size0); [lia|].
  repeat split. cbn. lia.
Qed.

(** ** The keyboard listener *)

Lemma key_press_eq (b : ascii) (s : processor) :
  key_press b s
  = if (nat_of_ascii b <? 128)%nat then handle_key (lower b) s
    else (Raise UnicodeDecodeError, s, []).
Proof.
  unfold key_press, decode_utf8, bind.
  destruct (nat_of_ascii b <? 128)%nat; cbn [ret raise]; [|reflexivity].
  destruct (handle_key (lower b) s) as [[r s1] t1]. reflexivity.
Qed.

Lemma lower_idempotent (b : ascii) :
  lower (lower b) = lower b /\
  (nat_of_ascii (lower b) <? 128)%nat = (nat_of_ascii b <? 128)%nat.
Proof.
  destruct b as [[] [] [] [] [] [] [] []]; vm_compute; split; reflexivity.
Qed.

(** X10. The listener does not distinguish the case of a key: a byte and
    its lower-case form have the same outcome, the same effect on the
    processor and the same log, so [R] resets and [Q] quits. *)
Theorem key_press_ignores_case (b : ascii) (s : processor) :
  key_press (lower b) s = key_press b s /\
  key_press "R" s = key_press "r" s /\
  key_press "Q" s = key_press "q" s.
Proof.
  assert (H : forall c, key_press (lower c) s = key_press c s).
  { intros c. rewrite !key_press_eq. destruct (lower_idempotent c) as [-> ->].
    reflexivity. }
  split; [apply H|]. split; [exact (eq_sym (H "R"%char)) | exact (eq_sym (H "Q"%char))].
Qed.

Lemma keyboard_listener_after_quit (b : ascii) (pre post : list (option ascii)) :
  (nat_of_ascii b <? 128)%nat = true -> lower b = "q"%char ->
  forall s, keyboard_listener (pre ++ Some b :: post) s
            = keyboard_listener (pre ++ [Some b]) s.
Proof.
  intros Hb Hq. induction pre as [|poll pre IH]; intros s;
    cbn [app keyboard_listener]; unfold bind, get_is_running;
    destruct (is_running s); try reflexivity.
  - pose proof (key_press_outcome b s) as Ho. rewrite Hb, Hq in Ho.
    destruct (key_press b s) as [[r s1] t1]. cbn in Ho. subst r. reflexivity.
  - destruct poll as [c|]; [|now rewrite IH].
    destruct (key_press c s) as [[[[|]|e|] s1] t1]; try reflexivity.
    now rewrite IH.
Qed.

Lemma keyboard_listener_quits (b : ascii) (pre post : list (option ascii)) :
  (nat_of_ascii b <? 128)%nat = true -> lower b = "q"%char ->
  all_decodable pre = true ->
  forall s, is_running (state_of (keyboard_listener (pre ++ Some b :: post) s)) = false.
Proof.
  intros Hb Hq. induction pre as [|poll pre IH]; intros Hpre s;
    cbn [app keyboard_listener]; unfold bind, get_is_running;
    destruct (is_running s) eqn:Hrun; try exact Hrun.
  - pose proof (key_press_outcome b s) as Ho. rewrite Hb, Hq in Ho.
    pose proof (key_press_state b s) as Hs. rewrite Hb, Hq, handle_key_state in Hs.
    destruct (key_press b s) as [[r s1] t1]. cbn in Ho, Hs. subst r s1. reflexivity.
  - cbn [all_decodable forallb] in Hpre. apply andb_true_iff in Hpre as [Hc Hpre].
    specialize (IH Hpre).
    destruct poll as [c|].
    + pose proof (key_press_outcome c s) as Ho. rewrite Hc in Ho.
      pose proof (key_press_state c s) as Hs. rewrite Hc, handle_key_state in Hs.
      destruct (key_press c s) as [[r s1] t1]. cbn in Ho, Hs. subst r.
      destruct (Ascii.eqb_spec (lower c) "q") as [Hcq|_].
      * subst s1. rewrite Hcq. reflexivity.
      * specialize (IH s1). destruct (keyboard_listener _ s1) as [[r2 s2] t2]. exact IH.
    + specialize (IH s). destruct (keyboard_listener _ s) as [[r2 s2] t2]. exact IH.
Qed.

(** X11. The quit key ends the listener wherever it comes in a burst of
    keys: what is typed after [q] (or [Q]) is never read, the run is the
    same with or without it; and if every byte before it can be decoded,
    [is_running] is false when the listener ends. *)
Theorem quit_key_ends_listener (b : ascii) (pre post : list (option ascii)) (s : processor) :
  (nat_of_ascii b <? 128)%nat = true -> lower b = "q"%char ->
  keyboard_listener (pre ++ Some b :: post) s = keyboard_listener (pre ++ [Some b]) s /\
  if all_decodable pre
  then is_running (state_of (keyboard_listener (pre ++ Some b :: post) s)) = false
  else True.
Proof.
  intros Hb Hq. split; [now apply keyboard_listener_after_quit|].
  destruct (all_decodable pre) eqn:Hpre; [|exact I].
  now apply keyboard_listener_quits.
Qed.

Lemma quit_key_ends_listener_witness :
  keyboard_listener ([Some "2"; None] ++ Some "Q" :: [Some "1"; Some "r"])%char
                    (with_is_running true default_processor)
  = keyboard_listener ([Some "2"; None] ++ [Some "Q"])%char
                      (with_is_running true default_processor) /\
  is_running (state_of
    (keyboard_listener ([Some "2"; None] ++ Some "Q" :: [Some "1"; Some "r"])%char
                       (with_is_running true default_processor))) = false.
Proof.
  exact (quit_key_ends_listener "Q"%char [Some "2"; None]%char [Some "1"; Some "r"]%char
           (with_is_running true default_processor) eq_refl eq_refl).
Defined.

(** X12. A byte that is not UTF-8 on its own (128 or above, such as the
    prefix bytes [getch] returns for the arrow and function keys) ends the
    listener with [UnicodeDecodeError]: no attribute changes, the processor
    keeps running, and no later key, [q] included, is read. *)
Theorem undecodable_byte_kills_listener (b : ascii) (idle : nat)
        (rest : list (option ascii)) (s : processor) :
  is_running s = true -> (128 <= nat_of_ascii b)%nat ->
  keyboard_listener (repeat None idle ++ Some b :: rest) s
  = (Raise UnicodeDecodeError, s, []).
Proof.
  intros Hrun Hb. induction idle as [|n IH];
    cbn [repeat app keyboard_listener]; unfold bind, get_is_running; rewrite Hrun.
  - rewrite key_press_eq.
    replace (nat_of_ascii b <? 128)%nat with false
      by (symmetry; apply Nat.ltb_ge; exact Hb).
    reflexivity.
  - rewrite IH. reflexivity.
Qed.

Lemma undecodable_byte_kills_listener_witness :
  keyboard_listener (repeat None 2 ++ Some (ascii_of_nat 224) :: [Some "q"%char])
                    (with_is_running true default_processor)
  = (Raise UnicodeDecodeError, with_is_running true default_processor, []).
Proof.
  apply undecodable_byte_kills_listener; [reflexivity | vm_compute; lia].
Defined.

(** *** The lock in the listener *)

Section LockScope.

Variable sel : event -> bool.

Lemma locked_body_app (body t : list event) :
  forallb (fun ev => negb (is_lock_event ev)) body = true ->
  only_while_locked sel true (body ++ t) = only_while_locked sel true t /\
  lock_held_after true (body ++ t) = lock_held_after true t.
Proof.
  induction body as [|ev body IH]; intros Hb; [split; reflexivity|].
  cbn [forallb] in Hb. apply andb_true_iff in Hb as [Hev Hb].
  destruct (IH Hb) as [IH1 IH2].
  destruct ev; try discriminate; cbn [app only_while_locked lock_held_after];
    rewrite ?orb_true_r; cbn [andb]; auto.
Qed.

(** A log that keeps the discipline, followed by one critical section and
    a log that keeps it, keeps it. *)
Lemma bracket_app (body t : list event) :
  forallb (fun ev => negb (is_lock_event ev)) body = true ->
  only_while_locked sel false t = true -> lock_held_after false t = false ->
  only_while_locked sel false (Acquire :: body ++ [Release] ++ t) = true /\
  lock_held_after false (Acquire :: body ++ [Release] ++ t) = false.
Proof.
  intros Hb H1 H2. cbn [only_while_locked lock_held_after].
  destruct (locked_body_app body ([Release] ++ t) Hb) as [-> ->].
  cbn [app only_while_locked lock_held_after]. auto.
Qed.

End LockScope.

(** Every key is handled in one critical section. *)
Lemma handle_key_log_bracketed (key : ascii) (s : processor) :
  exists body,
    log_of (handle_key key s) = Acquire :: body ++ [Release] /\
    forallb (fun ev => negb (is_lock_event ev)) body = true.
Proof.
  unfold handle_key.
  repeat next_key key ltac:(eexists; split; reflexivity).
  eexists. split; reflexivity.
Qed.

Lemma keyboard_listener_cons_log (poll : option ascii) (rest : list (option ascii))
      (s : processor) :
  log_of (keyboard_listener (poll :: rest) s)
  = if is_running s then
      match poll with
      | None => log_of (keyboard_listener rest s)
      | Some b =>
          if (nat_of_ascii b <? 128)%nat then
            log_of (handle_key (lower b) s)
            ++ (if (lower b =? "q")%char then []
                else log_of (keyboard_listener rest (state_of (handle_key (lower b) s))))
          else []
      end
    else [].
Proof.
  cbn [keyboard_listener]. unfold bind, get_is_running.
  destruct (is_running s); [|reflexivity].
  destruct poll as [b|].
  - rewrite key_press_eq. destruct (nat_of_ascii b <? 128)%nat; [|reflexivity].
    pose proof (handle_key_outcome (lower b) s) as Ho.
    destruct (handle_key (lower b) s) as [[r s1] t1]. cbn [outcome_of fst] in Ho. subst r.
    cbn [state_of log_of fst snd].
    destruct (lower b =? "q")%char; [reflexivity|].
    destruct (keyboard_listener rest s1) as [[r2 s2] t2]. reflexivity.
  - destruct (keyboard_listener rest s) as [[r2 s2] t2]. reflexivity.
Qed.

Lemma keyboard_listener_lock (polls : list (option ascii)) :
  forall s,
  only_while_locked is_write_or_print false (log_of (keyboard_listener polls s)) = true /\
  lock_held_after false (log_of (keyboard_listener polls s)) = false.
Proof.
  induction polls as [|poll rest IH]; intros s; [split; reflexivity|].
  rewrite keyboard_listener_cons_log.
  destruct (is_running s); [|split; reflexivity].
  destruct poll as [b|]; [|apply IH].
  destruct (nat_of_ascii b <? 128)%nat; [|split; reflexivity].
  destruct (handle_key_log_bracketed (lower b) s) as (body & -> & Hbody).
  cbn [app]. rewrite <- app_assoc.
  apply bracket_app; [exact Hbody| |].
  - destruct (lower b =? "q")%char; [reflexivity | apply IH].
  - destruct (lower b =? "q")%char; [reflexivity | apply IH].
Qed.

(** X13. In the listener every write of a parameter and every line of
    console output happens while the parameter lock is held (the settings
    display of the reset key included), and the lock is free whenever the
    listener ends, by [q], on an undecodable byte or with keys left. *)
Theorem keyboard_listener_lock_discipline (polls : list (option ascii)) (s : processor) :
  only_while_locked is_write_or_print false (log_of (keyboard_listener polls s)) = true /\
  lock_held_after false (log_of (keyboard_listener polls s)) = false.
Proof. apply keyboard_listener_lock. Qed.

(* ================================================================== *)
(** ** Magnitudes through the float32 operations

    What the mix needs to stay clear of NaN: on operands that are zero or
    finite and small, each operation gives a result that is zero or finite,
    at most a few binary orders larger.  The lemmas hold for every format
    [(p, em)]. *)

Section Magnitudes.

Local Open Scope Z_scope.

Variables p em : Z.
Hypothesis p_pos : 0 < p.

Lemma bounded_mag_le (B B' : Z) (x : spec_float) :
  B <= B' -> bounded_mag B x -> bounded_mag B' x.
Proof. destruct x; cbn; intros; try assumption; lia. Qed.

Lemma Zdigits2_nonneg (m : Z) : 0 <= Zdigits2 m.
Proof. destruct m; cbn; lia. Qed.

Lemma Zdigits2_bound (m : Z) : 0 <= m -> m < 2 ^ Zdigits2 m.
Proof.
  destruct m as [|q|q]; cbn [Zdigits2]; intros H; [reflexivity| |lia].
  apply digits2_pos_bounds.
Qed.

Lemma Zdigits2_div_pow2 (m k : Z) :
  0 <= m -> 0 <= k -> Zdigits2 (m / 2 ^ k) <= Z.max (Zdigits2 m - k) 0.
Proof.
  intros Hm Hk.
  assert (HK : 0 < 2 ^ k) by (apply Z.pow_pos_nonneg; lia).
  apply Zdigits2_le; [apply Z.div_pos; lia | lia |].
  pose proof (Zdigits2_bound m Hm) as Hb. pose proof (Zdigits2_nonneg m) as Hd.
  apply Z.div_lt_upper_bound; [lia|].
  destruct (Z_le_gt_dec k (Zdigits2 m)) as [Hle|Hgt].
  - replace (Z.max (Zdigits2 m - k) 0) with (Zdigits2 m - k) by lia.
    rewrite <- Z.pow_add_r by lia. now replace (k + (Zdigits2 m - k)) with (Zdigits2 m) by lia.
  - replace (Z.max (Zdigits2 m - k) 0) with 0 by lia. rewrite Z.mul_1_r.
    assert (2 ^ Zdigits2 m <= 2 ^ k) by (apply Z.pow_le_mono_r; lia). lia.
Qed.

Lemma Zdigits2_succ (m m' : Z) :
  0 <= m -> 0 <= m' <= m + 1 -> Zdigits2 m' <= Zdigits2 m + 1.
Proof.
  intros Hm Hm'. pose proof (Zdigits2_bound m Hm). pose proof (Zdigits2_nonneg m).
  apply Zdigits2_le; try lia. rewrite Z.pow_add_r by lia. lia.
Qed.

(** The mantissa and the exponent after a right shift, whatever the round
    and sticky bits. *)
Lemma shr_mantissa (mrs : shr_record) (e k : Z) :
  0 <= shr_m mrs ->
  shr_m (fst (shr mrs e k)) = shr_m mrs / 2 ^ Z.max k 0 /\
  snd (shr mrs e k) = e + Z.max k 0.
Proof.
  intros Hm. destruct k as [|q|q]; cbn [shr fst snd].
  - change (Z.max 0 0) with 0. rewrite Z.pow_0_r, Z.div_1_r, Z.add_0_r. auto.
  - replace (Z.max (Z.pos q) 0) with (Z.pos q) by lia. split; [|reflexivity].
    rewrite iter_pos_iter. clear e.
    induction q as [|q IH] using Pos.peano_ind.
    + cbn [Pos.iter]. now destruct (shr_1_spec mrs Hm) as [-> _].
    + rewrite Pos.iter_succ.
      assert (Hpos : 0 <= shr_m (Pos.iter shr_1 mrs q))
        by (rewrite IH; apply Z.div_pos; lia).
      destruct (shr_1_spec _ Hpos) as [-> _]. rewrite IH.
      rewrite Pos2Z.inj_succ, Z.pow_succ_r, Z.div_div by lia. f_equal. lia.
  - replace (Z.max (Z.neg q) 0) with 0 by lia.
    rewrite Z.pow_0_r, Z.div_1_r, Z.add_0_r. auto.
Qed.

Lemma shr_record_of_loc_m (m : Z) (l : location) : shr_m (shr_record_of_loc m l) = m.
Proof. destruct l as [|[]]; reflexivity. Qed.

(** One rounding: digits and exponent of the shifted mantissa. *)
Lemma shr_fexp_bounded (m e : Z) (l : location) (B : Z) :
  0 <= m -> Zdigits2 m + e <= B -> SpecFloat.emin p em <= B ->
  let '(mrs, e') := shr_fexp p em m e l in
  0 <= shr_m mrs /\ Zdigits2 (shr_m mrs) + e' <= B /\ e' <= B.
Proof.
  intros Hm Hd Hemin. unfold shr_fexp.
  pose proof (shr_mantissa (shr_record_of_loc m l) e
                (fexp p em (Zdigits2 m + e) - e)) as Hs.
  rewrite shr_record_of_loc_m in Hs. specialize (Hs Hm).
  destruct (shr _ _ _) as [mrs e']. cbn [fst snd] in Hs. destruct Hs as [Hm1 He1].
  set (k := Z.max (fexp p em (Zdigits2 m + e) - e) 0) in *.
  assert (Hk : 0 <= k) by lia.
  assert (HK : 0 < 2 ^ k) by (apply Z.pow_pos_nonneg; lia).
  pose proof (Zdigits2_div_pow2 m k Hm Hk) as Hdiv.
  pose proof (Zdigits2_nonneg m) as Hnn.
  assert (Hf : fexp p em (Zdigits2 m + e) <= B) by (unfold fexp; lia).
  rewrite Hm1, He1. split; [apply Z.div_pos; lia|]. lia.
Qed.

(** [binary_round_aux] on a small enough input gives a zero or a finite
    number at most one binary order above the input. *)
Lemma binary_round_aux_bounded (s : bool) (m e : Z) (l : location) (B : Z) :
  0 <= m -> Zdigits2 m + e <= B -> SpecFloat.emin p em <= B -> B < em - p ->
  bounded_mag (B + 1) (binary_round_aux p em s m e l).
Proof.
  intros Hm Hd Hemin Hmax. unfold binary_round_aux.
  pose proof (shr_fexp_bounded m e l B Hm Hd Hemin) as H1.
  destruct (shr_fexp p em m e l) as [mrs1 e1]. destruct H1 as (Hm1 & Hd1 & He1).
  set (m2 := round_nearest_even (shr_m mrs1) (loc_of_shr_record mrs1)).
  destruct (round_nearest_even_bounds (shr_m mrs1) (loc_of_shr_record mrs1)) as [Hr _].
  fold m2 in Hr.
  assert (Hm2 : 0 <= m2) by lia.
  assert (Hd2 : Zdigits2 m2 + e1 <= B + 1).
  { pose proof (Zdigits2_succ (shr_m mrs1) m2 Hm1 ltac:(lia)). lia. }
  unfold shr_fexp.
  pose proof (shr_mantissa (shr_record_of_loc m2 loc_Exact) e1
                (fexp p em (Zdigits2 m2 + e1) - e1)) as Hs.
  rewrite shr_record_of_loc_m in Hs. specialize (Hs Hm2).
  destruct (shr _ _ _) as [mrs3 e3]. cbn [fst snd] in Hs. destruct Hs as [Hm3 He3].
  set (k := Z.max (fexp p em (Zdigits2 m2 + e1) - e1) 0) in *.
  assert (Hk : 0 <= k) by lia.
  assert (HK : 0 < 2 ^ k) by (apply Z.pow_pos_nonneg; lia).
  pose proof (Zdigits2_div_pow2 m2 k Hm2 Hk) as Hdiv.
  pose proof (Zdigits2_nonneg m2) as Hnn.
  assert (Hf : fexp p em (Zdigits2 m2 + e1) <= B) by (unfold fexp; lia).
  assert (He3' : e3 <= B) by lia.
  assert (Hm3pos : 0 <= shr_m mrs3) by (rewrite Hm3; apply Z.div_pos; lia).
  destruct (shr_m mrs3) as [|q|q] eqn:Hq; [exact I| |lia].
  replace (e3 <=? em - p) with true by (symmetry; apply Z.leb_le; lia).
  cbn [bounded_mag]. change (Z.pos (digits2_pos q)) with (Zdigits2 (Z.pos q)).
  rewrite Hm3. lia.
Qed.

Lemma binary_round_bounded (s : bool) (m : positive) (e : Z) (B : Z) :
  Zpos (digits2_pos m) + e <= B -> SpecFloat.emin p em <= B -> B < em - p ->
  bounded_mag (B + 1) (binary_round p em s m e).
Proof.
  intros Hd Hemin Hmax. unfold binary_round.
  pose proof (shl_align_spec m e (fexp p em (Zpos (digits2_pos m) + e))) as Hsh.
  destruct (shl_align _ _ _) as [mz ez]. destruct Hsh as (_ & _ & Hdig).
  apply binary_round_aux_bounded; cbn [Zdigits2]; lia.
Qed.

Lemma binary_normalize_bounded (m e : Z) (sz : bool) (B : Z) :
  Zdigits2 m + e <= B -> SpecFloat.emin p em <= B -> B < em - p ->
  bounded_mag (B + 1) (binary_normalize p em m e sz).
Proof.
  intros Hd Hemin Hmax. destruct m as [|q|q]; cbn [binary_normalize];
    [exact I | |]; apply binary_round_bounded; assumption.
Qed.

(** The aligned mantissa of an operand below [2 ^ B]. *)
Lemma aligned_mantissa_bound (m : positive) (e ez : Z) (B : Z) :
  Zpos (digits2_pos m) + e <= B -> ez <= e ->
  Zpos (fst (shl_align m e ez)) < 2 ^ (B - ez).
Proof.
  intros Hd Hez. pose proof (shl_align_spec m e ez) as Hsh.
  destruct (shl_align m e ez) as [mz ez']. destruct Hsh as (He & Hv & _).
  cbn [fst]. rewrite Hv. replace ez' with ez by lia.
  pose proof (digits2_pos_bounds m) as [_ Hub].
  assert (H2 : 0 < 2 ^ (e - ez)) by (apply Z.pow_pos_nonneg; lia).
  assert (Hle : 2 ^ Zpos (digits2_pos m) * 2 ^ (e - ez) <= 2 ^ (B - ez)).
  { rewrite <- Z.pow_add_r by lia. apply Z.pow_le_mono_r; lia. }
  nia.
Qed.

Lemma sum_digits_bound (a b : Z) (n : Z) :
  0 <= n -> Z.abs a < 2 ^ n -> Z.abs b < 2 ^ n -> Zdigits2 (a + b) <= n + 1.
Proof.
  intros Hn Ha Hb.
  assert (H : Z.abs (a + b) < 2 ^ (n + 1)).
  { rewrite Z.pow_add_r by lia. lia. }
  destruct (a + b) as [|q|q] eqn:Hq; cbn [Zdigits2]; [lia| |];
    apply digits2_pos_le; cbn [Z.abs] in H; exact H.
Qed.

Lemma SFadd_bounded (x y : spec_float) (B : Z) :
  bounded_mag B x -> bounded_mag B y ->
  SpecFloat.emin p em <= B + 1 -> B + 1 < em - p ->
  bounded_mag (B + 2) (SFadd p em x y).
Proof.
  intros Hx Hy Hemin Hmax.
  destruct x as [sx|sx| |sx mx ex], y as [sy|sy| |sy my ey]; cbn [bounded_mag] in Hx, Hy;
    try contradiction.
  - destruct sx, sy; exact I.
  - cbn [SFadd bounded_mag]. lia.
  - cbn [SFadd bounded_mag]. lia.
  - cbn [SFadd]. replace (B + 2) with (B + 1 + 1) by lia.
    apply binary_normalize_bounded; try assumption.
    assert (Hez1 : Z.min ex ey <= ex) by lia.
    assert (Hez2 : Z.min ex ey <= ey) by lia.
    set (ez := Z.min ex ey) in *.
    pose proof (aligned_mantissa_bound mx ex ez B Hx Hez1) as Ha.
    pose proof (aligned_mantissa_bound my ey ez B Hy Hez2) as Hb.
    assert (Hn : 0 <= B - ez).
    { pose proof (Pos2Z.is_pos (digits2_pos mx)). lia. }
    pose proof (sum_digits_bound
                  (cond_Zopp sx (Z.pos (fst (shl_align mx ex ez))))
                  (cond_Zopp sy (Z.pos (fst (shl_align my ey ez))))
                  (B - ez) Hn) as Hs.
    assert (Hd : Zdigits2 (cond_Zopp sx (Z.pos (fst (shl_align mx ex ez)))
                           + cond_Zopp sy (Z.pos (fst (shl_align my ey ez))))
                 <= B - ez + 1).
    { apply Hs; [destruct sx | destruct sy]; cbn [cond_Zopp]; lia. }
    lia.
Qed.

Lemma SFsub_bounded (x y : spec_float) (B : Z) :
  bounded_mag B x -> bounded_mag B y ->
  SpecFloat.emin p em <= B + 1 -> B + 1 < em - p ->
  bounded_mag (B + 2) (SFsub p em x y).
Proof.
  intros Hx Hy Hemin Hmax.
  destruct x as [sx|sx| |sx mx ex], y as [sy|sy| |sy my ey]; cbn [bounded_mag] in Hx, Hy;
    try contradiction.
  - destruct sx, sy; exact I.
  - cbn [SFsub bounded_mag]. lia.
  - cbn [SFsub bounded_mag]. lia.
  - cbn [SFsub]. replace (B + 2) with (B + 1 + 1) by lia.
    apply binary_normalize_bounded; try assumption.
    assert (Hez1 : Z.min ex ey <= ex) by lia.
    assert (Hez2 : Z.min ex ey <= ey) by lia.
    set (ez := Z.min ex ey) in *.
    pose proof (aligned_mantissa_bound mx ex ez B Hx Hez1) as Ha.
    pose proof (aligned_mantissa_bound my ey ez B Hy Hez2) as Hb.
    assert (Hn : 0 <= B - ez).
    { pose proof (Pos2Z.is_pos (digits2_pos mx)). lia. }
    pose proof (sum_digits_bound
                  (cond_Zopp sx (Z.pos (fst (shl_align mx ex ez))))
                  (- cond_Zopp sy (Z.pos (fst (shl_align my ey ez))))
                  (B - ez) Hn) as Hs.
    assert (Hd : Zdigits2 (cond_Zopp sx (Z.pos (fst (shl_align mx ex ez)))
                           - cond_Zopp sy (Z.pos (fst (shl_align my ey ez))))
                 <= B - ez + 1).
    { unfold Z.sub at 1. apply Hs; [destruct sx | destruct sy]; cbn [cond_Zopp]; lia. }
    lia.
Qed.

Lemma SFmul_bounded (x y : spec_float) (Bx By : Z) :
  bounded_mag Bx x -> bounded_mag By y ->
  SpecFloat.emin p em <= Bx + By -> Bx + By < em - p ->
  bounded_mag (Bx + By + 1) (SFmul p em x y).
Proof.
  intros Hx Hy Hemin Hmax.
  destruct x as [sx|sx| |sx mx ex], y as [sy|sy| |sy my ey]; cbn [bounded_mag] in Hx, Hy;
    try contradiction; try exact I.
  cbn [SFmul]. apply binary_round_aux_bounded; try assumption; [lia|].
  cbn [Zdigits2].
  assert (Hd : Zpos (digits2_pos (mx * my))
               <= Zpos (digits2_pos mx) + Zpos (digits2_pos my)).
  { apply digits2_pos_le. rewrite Pos2Z.inj_mul, Z.pow_add_r by lia.
    pose proof (digits2_pos_bounds mx) as [_ H1].
    pose proof (digits2_pos_bounds my) as [_ H2]. nia. }
  lia.
Qed.

(** Division by a finite number of at least [2 ^ (L - 1)] in magnitude. *)
Lemma SFdiv_bounded (x : spec_float) (sy : bool) (my : positive) (ey : Z) (B B' : Z) :
  bounded_mag B x ->
  B - (Zpos (digits2_pos my) + ey) + 1 <= B' ->
  SpecFloat.emin p em <= B' -> B' < em - p ->
  bounded_mag (B' + 1) (SFdiv p em x (S754_finite sy my ey)).
Proof.
  intros Hx HB Hemin Hmax.
  destruct x as [sx|sx| |sx mx ex]; cbn [bounded_mag] in Hx; try contradiction; [exact I|].
  cbn [SFdiv]. unfold SFdiv_core_binary. cbn [Zdigits2].
  set (d1 := Zpos (digits2_pos mx)) in *. set (d2 := Zpos (digits2_pos my)) in *.
  set (e' := Z.min (fexp p em (d1 + ex - (d2 + ey))) (ex - ey)).
  set (sh := ex - ey - e').
  assert (Hsh : 0 <= sh) by (unfold sh, e'; lia).
  set (m' := match sh with
             | 0 => Z.pos mx
             | Z.pos _ => Z.shiftl (Z.pos mx) sh
             | Z.neg _ => 0
             end).
  assert (Hm' : m' = Z.pos mx * 2 ^ sh).
  { unfold m'. destruct sh as [|q|q] eqn:Hq; [cbn; lia | | lia].
    now rewrite Z.shiftl_mul_pow2 by lia. }
  pose proof (Z_div_mod m' (Z.pos my) ltac:(lia)) as Hdm.
  unfold Z.div_eucl in Hdm. fold (Z.div_eucl m' (Z.pos my)) in Hdm.
  destruct (Z.div_eucl m' (Z.pos my)) as [q r]. destruct Hdm as [Heq Hr].
  assert (H2sh : 0 < 2 ^ sh) by (apply Z.pow_pos_nonneg; lia).
  assert (Hq : 0 <= q) by nia.
  apply binary_round_aux_bounded; try assumption.
  pose proof (digits2_pos_bounds mx) as [_ Hmx]. fold d1 in Hmx.
  pose proof (digits2_pos_bounds my) as [Hmy _]. fold d2 in Hmy.
  assert (Hd1 : 0 < d1) by (unfold d1; lia).
  assert (Hd2 : 0 < d2) by (unfold d2; lia).
  assert (Hfe : fexp p em (d1 + ex - (d2 + ey)) <= B') by (unfold fexp; lia).
  assert (Hdq : Zdigits2 q <= Z.max (d1 + sh - d2 + 1) 0).
  { apply Zdigits2_le; try lia.
    assert (Hlow : 0 < 2 ^ (d2 - 1)) by (apply Z.pow_pos_nonneg; lia).
    assert (Hqm : q * 2 ^ (d2 - 1) < 2 ^ (d1 + sh)).
    { rewrite Z.pow_add_r by lia. nia. }
    destruct (Z_le_gt_dec 0 (d1 + sh - d2 + 1)) as [Hge|Hlt].
    - replace (Z.max (d1 + sh - d2 + 1) 0) with (d1 + sh - d2 + 1) by lia.
      replace (d1 + sh) with ((d1 + sh - d2 + 1) + (d2 - 1)) in Hqm by lia.
      rewrite Z.pow_add_r in Hqm by lia. nia.
    - replace (Z.max (d1 + sh - d2 + 1) 0) with 0 by lia. cbn.
      assert (2 ^ (d1 + sh) <= 2 ^ (d2 - 1)) by (apply Z.pow_le_mono_r; lia). nia. }
  unfold sh in Hdq. lia.
Qed.

End Magnitudes.

(* ================================================================== *)
(** ** The mix in float32 *)

Section Mix32.

Local Open Scope Z_scope.

Lemma prec32_pos : 0 < prec32.
Proof. reflexivity. Qed.

Lemma f32_one_eq : f32_of_float 1.0 = S754_finite false 8388608 (-23).
Proof. vm_compute. reflexivity. Qed.

Lemma f32_minus_one_eq : f32_of_float (-1.0) = S754_finite true 8388608 (-23).
Proof. vm_compute. reflexivity. Qed.

Lemma f32_two_eq : f32_of_float 2.0 = S754_finite false 8388608 (-22).
Proof. vm_compute. reflexivity. Qed.

(** A parameter of a range [[0, hi]], [hi] below 2, is cast to a zero or to
    a finite float32 below 4. *)
Lemma f32_of_float_in_range (x hi : float) (mh : positive) :
  Prim2SF hi = S754_finite false mh (-52) ->
  in_closed_range hi x = true ->
  bounded_mag 2 (f32_of_float x).
Proof.
  intros Hh. unfold in_closed_range. rewrite andb_true_iff, !leb_spec, Hh.
  change (Prim2SF 0) with (S754_zero false).
  pose proof (Prim2SF_valid hi) as Hvh. rewrite Hh in Hvh.
  pose proof (Prim2SF_valid x) as Hvx.
  unfold f32_of_float.
  destruct (Prim2SF x) as [s|s| |s m e]; intros [H0 H1]; try discriminate.
  - exact I.
  - destruct s; discriminate.
  - destruct s; [discriminate|].
    cbn [valid_binary] in Hvx, Hvh.
    destruct (bounded64 m e Hvx) as [He Hm].
    destruct (bounded64 mh (-52) Hvh) as [_ Hub].
    assert (Hlb : 2 ^ 52 <= Zpos mh).
    { unfold bounded, canonical_mantissa in Hvh.
      rewrite andb_true_iff, Z.eqb_eq, fexp64 in Hvh. destruct Hvh as [Hcan _].
      pose proof (digits2_pos_bounds mh) as [Hlb _].
      replace (Zpos (digits2_pos mh) - 1) with 52 in Hlb by lia. exact Hlb. }
    pose proof (le_hi_value m e mh Hvx Hlb H1) as Hval.
    replace 2 with (1 + 1) by reflexivity.
    apply (binary_round_bounded prec32 emax32 prec32_pos); [|cbv; discriminate|reflexivity].
    assert (Hd : Zpos (digits2_pos m) <= 1 - e).
    { apply digits2_pos_le.
      assert (HA : 0 < 2 ^ (e + 1074)) by (apply Z.pow_pos_nonneg; lia).
      assert (He52 : e <= -52).
      { unfold SFleb, SFcompare in H1.
        destruct (Z.compare_spec e (-52)); [lia|lia|discriminate]. }
      assert (H1075 : 2 ^ (1 - e) * 2 ^ (e + 1074) = 2 ^ 53 * 2 ^ 1022).
      { rewrite <- Z.pow_add_r by lia.
        replace (1 - e + (e + 1074)) with (53 + 1022) by lia.
        apply Z.pow_add_r; lia. }
      assert (0 < 2 ^ 1022) by (apply Z.pow_pos_nonneg; lia).
      nia. }
    lia.
Qed.

Lemma params_casts_bounded (s : processor) :
  params_in_range s = true ->
  bounded_mag 2 (f32_of_float (center_attenuation s)) /\
  bounded_mag 2 (f32_of_float (vocal_removal_mix s)) /\
  bounded_mag 2 (f32_of_float (master_volume s)).
Proof.
  unfold params_in_range. rewrite !andb_true_iff. intros [[Hca Hvrm] Hmv].
  repeat split; eapply f32_of_float_in_range; try eassumption; float_eval.
Qed.

(** The mix before the limiter, on samples below [2 ^ 64] and parameters in
    range, is a zero or a finite number: it is not NaN. *)
Lemma raw_mix_bounded (s : processor) (L R : f32) :
  params_in_range s = true ->
  bounded_mag 64 L -> bounded_mag 64 R ->
  bounded_mag 74 (raw_mix s L R).
Proof.
  intros Hp HL HR. destruct (params_casts_bounded s Hp) as (Hca & Hvrm & Hmv).
  unfold raw_mix, f32_mul, f32_add, f32_sub, f32_div. rewrite f32_two_eq.
  assert (Hdiff : bounded_mag 66 (SFsub prec32 emax32 L R)).
  { apply (SFsub_bounded prec32 emax32 prec32_pos L R 64); try assumption;
      [cbv; discriminate | reflexivity]. }
  assert (Hsum : bounded_mag 66 (SFadd prec32 emax32 L R)).
  { apply (SFadd_bounded prec32 emax32 prec32_pos L R 64); try assumption;
      [cbv; discriminate | reflexivity]. }
  assert (Hvr : bounded_mag 69
                  (SFmul prec32 emax32 (SFsub prec32 emax32 L R)
                     (f32_of_float (vocal_removal_mix s)))).
  { apply (SFmul_bounded prec32 emax32 prec32_pos _ _ 66 2); try assumption;
      [cbv; discriminate | reflexivity]. }
  assert (Hhalf : bounded_mag 66
                    (SFdiv prec32 emax32 (SFadd prec32 emax32 L R)
                       (S754_finite false 8388608 (-22)))).
  { apply (SFdiv_bounded prec32 emax32 prec32_pos _ false 8388608 (-22) 66 65);
      try assumption; [cbv; discriminate | cbv; discriminate | reflexivity]. }
  assert (Hcenter : bounded_mag 69
                      (SFmul prec32 emax32
                         (SFdiv prec32 emax32 (SFadd prec32 emax32 L R)
                            (S754_finite false 8388608 (-22)))
                         (f32_of_float (center_attenuation s)))).
  { apply (SFmul_bounded prec32 emax32 prec32_pos _ _ 66 2); try assumption;
      [cbv; discriminate | reflexivity]. }
  replace 74 with (71 + 2 + 1) by reflexivity.
  apply (SFmul_bounded prec32 emax32 prec32_pos _ _ 71 2); try assumption;
    [|cbv; discriminate | reflexivity].
  apply (SFadd_bounded prec32 emax32 prec32_pos _ _ 69); try assumption;
    [cbv; discriminate | reflexivity].
Qed.

Lemma bounded_mag_not_nan (B : Z) (x : f32) : bounded_mag B x -> f32_is_nan x = false.
Proof. destruct x; cbn; intros H; try contradiction; reflexivity. Qed.

(** A float32 value of [[-1.0, 1.0]] is below 2. *)
Lemma unit_sample_bounded (x : f32) : unit_sample x = true -> bounded_mag 64 x.
Proof.
  unfold unit_sample, f32_valid, within_unit, f32_between.
  rewrite f32_one_eq, f32_minus_one_eq, !andb_true_iff.
  intros [Hv [Hlo Hhi]]. apply (bounded_mag_le 1 64); [lia|].
  destruct x as [s|s| |s m e]; try discriminate.
  - exact I.
  - destruct s; discriminate.
  - cbn [SpecFloat.valid_binary] in Hv. unfold bounded, canonical_mantissa in Hv.
    apply andb_true_iff in Hv as [Hc _]. apply Z.eqb_eq in Hc.
    unfold fexp in Hc. cbn [bounded_mag].
    assert (Hd : Zpos (digits2_pos m) <= 24) by (unfold prec32 in Hc; lia).
    unfold SFleb, SFcompare in Hlo, Hhi. destruct s.
    + destruct (Z.compare_spec (-23) e); try discriminate; lia.
    + destruct (Z.compare_spec e (-23)); try discriminate; lia.
Qed.

End Mix32.

Lemma stereo_rows_within_unit (s : processor) (a : matrix) :
  params_in_range s = true ->
  stereo_samples (bounded_mag 64) a ->
  samples_within_unit
    {| ncols := 2;
       rows := map (fun r => [mix_formula s (row_get 0 r) (row_get 1 r);
                              mix_formula s (row_get 0 r) (row_get 1 r)])
                   (rows a) |} = true.
Proof.
  intros Hp Hs. unfold samples_within_unit. cbn [rows].
  apply forallb_forall. intros o Ho. apply in_map_iff in Ho as (r & <- & Hr).
  unfold stereo_samples in Hs. rewrite Forall_forall in Hs.
  destruct (Hs r Hr) as [HL HR].
  pose proof (raw_mix_bounded s _ _ Hp HL HR) as Hb.
  apply bounded_mag_not_nan in Hb.
  destruct (mix_formula_limited s (row_get 0 r) (row_get 1 r)) as [_ Hw].
  cbn [forallb]. now rewrite (Hw Hb).
Qed.

(** X14. With the three parameters in their ranges, a block of at least
    two channels whose samples in channels 0 and 1 are zeros or finite
    numbers below [2 ^ 64] in magnitude is mixed without any NaN or
    infinity: every sample of the block [process_audio] returns lies in
    [[-1.0, 1.0]]. *)
Theorem process_audio_limits_finite_samples (s : processor) (a : matrix) :
  params_in_range s = true ->
  (2 <= ncols a)%nat ->
  stereo_samples (bounded_mag 64) a ->
  exists out,
    outcome_of (process_audio (Arr2 a) s) = Ok out /\
    samples_within_unit out = true.
Proof.
  intros Hp Hc Hs. rewrite process_audio_stereo_eq by assumption.
  eexists. split; [reflexivity|]. now apply stereo_rows_within_unit.
Qed.

Lemma process_audio_limits_finite_samples_witness :
  exists out,
    outcome_of (process_audio
                  (Arr2 {| ncols := 2;
                           rows := [[f32_of_float 1000000.0; f32_of_float (-3.5)]] |})
                  default_processor) = Ok out /\
    samples_within_unit out = true.
Proof.
  apply process_audio_limits_finite_samples;
    [reflexivity | cbn [ncols]; lia |].
  constructor; [|constructor]. vm_compute. split; discriminate.
Defined.

(** X15. The limiter invariant on the conventional range: with the three
    parameters in their ranges, a block of at least two channels whose
    samples in channels 0 and 1 are float32 values of [[-1.0, 1.0]] gives a
    block all of whose samples lie in [[-1.0, 1.0]]. *)
Theorem process_audio_limits_unit_samples (s : processor) (a : matrix) :
  params_in_range s = true ->
  (2 <= ncols a)%nat ->
  stereo_samples (fun x => unit_sample x = true) a ->
  exists out,
    outcome_of (process_audio (Arr2 a) s) = Ok out /\
    samples_within_unit out = true.
Proof.
  intros Hp Hc Hs. rewrite process_audio_stereo_eq by assumption.
  eexists. split; [reflexivity|]. apply stereo_rows_within_unit; [assumption|].
  unfold stereo_samples in *. eapply Forall_impl; [|exact Hs].
  intros r [H0 H1]. split; now apply unit_sample_bounded.
Qed.

Lemma process_audio_limits_unit_samples_witness :
  exists out,
    outcome_of (process_audio (stereo_frame 1.0 (-1.0)) default_processor) = Ok out /\
    samples_within_unit out = true.
Proof.
  apply process_audio_limits_unit_samples;
    [reflexivity | cbn [ncols]; lia |].
  constructor; [|constructor]. split; vm_compute; reflexivity.
Defined.

(* ================================================================== *)
(** ** Silence *)

Lemma f32_sub_zero (x y : f32) :
  f32_is_zero x = true -> f32_is_zero y = true -> f32_is_zero (f32_sub x y) = true.
Proof.
  destruct x as [sx| | |], y as [sy| | |]; try discriminate. intros _ _.
  destruct sx, sy; reflexivity.
Qed.

Lemma f32_add_zero (x y : f32) :
  f32_is_zero x = true -> f32_is_zero y = true -> f32_is_zero (f32_add x y) = true.
Proof.
  destruct x as [sx| | |], y as [sy| | |]; try discriminate. intros _ _.
  destruct sx, sy; reflexivity.
Qed.

Lemma f32_mul_zero (B : Z) (x y : f32) :
  f32_is_zero x = true -> bounded_mag B y -> f32_is_zero (f32_mul x y) = true.
Proof.
  destruct x as [sx| | |]; try discriminate. intros _.
  destruct y; cbn [bounded_mag]; intros H; try contradiction; reflexivity.
Qed.

Lemma f32_div_zero_two (x : f32) :
  f32_is_zero x = true -> f32_is_zero (f32_div x (f32_of_float 2.0)) = true.
Proof.
  rewrite f32_two_eq. destruct x; try discriminate. reflexivity.
Qed.

Lemma f32_clip_zero (x : f32) :
  f32_is_zero x = true -> f32_clip x (f32_of_float (-1.0)) (f32_of_float 1.0) = x.
Proof.
  rewrite f32_one_eq, f32_minus_one_eq. destruct x as [s| | |]; try discriminate.
  intros _. reflexivity.
Qed.

Lemma mix_formula_zero (s : processor) (L R : f32) :
  params_in_range s = true ->
  f32_is_zero L = true -> f32_is_zero R = true ->
  f32_is_zero (mix_formula s L R) = true.
Proof.
  intros Hp HL HR. destruct (params_casts_bounded s Hp) as (Hca & Hvrm & Hmv).
  assert (Hraw : f32_is_zero (raw_mix s L R) = true).
  { unfold raw_mix. apply (f32_mul_zero 2); [|assumption].
    apply f32_add_zero.
    - apply (f32_mul_zero 2); [|assumption]. now apply f32_sub_zero.
    - apply (f32_mul_zero 2); [|assumption]. apply f32_div_zero_two.
      now apply f32_add_zero. }
  unfold mix_formula. now rewrite f32_clip_zero.
Qed.

(** X16. Silence in, silence out: with the three parameters in their
    ranges, a block of at least two channels whose channels 0 and 1 hold
    only zeros is mixed to a block that holds only zeros.  (With a
    parameter that is infinite or NaN the product with zero would be NaN;
    the ranges rule that out.) *)
Theorem process_audio_keeps_silence (s : processor) (a : matrix) :
  params_in_range s = true ->
  (2 <= ncols a)%nat ->
  stereo_samples (fun x => f32_is_zero x = true) a ->
  exists out,
    outcome_of (process_audio (Arr2 a) s) = Ok out /\
    Forall (Forall (fun x => f32_is_zero x = true)) (rows out).
Proof.
  intros Hp Hc Hs. rewrite process_audio_stereo_eq by assumption.
  eexists. split; [reflexivity|]. cbn [rows].
  apply Forall_forall. intros o Ho. apply in_map_iff in Ho as (r & <- & Hr).
  unfold stereo_samples in Hs. rewrite Forall_forall in Hs.
  destruct (Hs r Hr) as [HL HR].
  pose proof (mix_formula_zero s _ _ Hp HL HR) as Hz.
  repeat constructor; exact Hz.
Qed.

Lemma process_audio_keeps_silence_witness :
  exists out,
    outcome_of (process_audio (stereo_frame 0.0 (-0.0)) default_processor) = Ok out /\
    Forall (Forall (fun x => f32_is_zero x = true)) (rows out).
Proof.
  apply process_audio_keeps_silence;
    [reflexivity | cbn [ncols]; lia |].
  constructor; [|constructor]. split; vm_compute; reflexivity.
Defined.

(* ================================================================== *)
(** ** What the queue holds *)

Lemma np_zeros_stereo_block (n : nat) : stereo_block (np_zeros n 2).
Proof.
  split; [reflexivity|]. unfold matrix_wf, np_zeros. cbn [rows ncols].
  apply Forall_forall. intros r Hr. apply repeat_spec in Hr. now subst r.
Qed.

Lemma np_zeros_playable (n : nat) : playable (np_zeros n 2).
Proof.
  split; [apply np_zeros_stereo_block|].
  unfold samples_within_unit, np_zeros. cbn [rows].
  apply forallb_forall. intros r Hr. apply repeat_spec in Hr. subst r.
  vm_compute. reflexivity.
Qed.

Lemma process_audio_stereo_block (s : processor) (audio_data : ndarray) (out : matrix) :
  outcome_of (process_audio audio_data s) = Ok out -> stereo_block out.
Proof.
  destruct audio_data as [v|a].
  - rewrite process_audio_1d_eq. cbn [outcome_of fst]. intros [= <-].
    split; [reflexivity | apply duplicated_wf].
  - destruct (ncols a) as [|[|n]] eqn:Hc.
    + rewrite process_audio_zero_channels_eq by assumption. discriminate.
    + rewrite process_audio_one_channel_eq by assumption. cbn [outcome_of fst].
      intros [= <-]. split; [reflexivity|].
      rewrite <- (map_map (row_get 0) (fun x => [x; x])). apply duplicated_wf.
    + rewrite process_audio_stereo_eq by lia. cbn [outcome_of fst].
      intros [= <-]. split; [reflexivity | apply process_audio_stereo_wf].
Qed.

Lemma unit_sample_within (x : f32) : unit_sample x = true -> within_unit x = true.
Proof. unfold unit_sample. now intros [_ H]%andb_true_iff. Qed.

Lemma row_get_unit (j : nat) (r : vec) :
  Forall (fun x => unit_sample x = true) r -> unit_sample (row_get j r) = true.
Proof.
  intros H. unfold row_get. destruct (nth_in_or_default j r f32_zero) as [Hin| ->].
  - rewrite Forall_forall in H. now apply H.
  - vm_compute. reflexivity.
Qed.

Lemma process_audio_playable (s : processor) (audio_data : ndarray) (out : matrix) :
  params_in_range s = true ->
  unit_input audio_data ->
  outcome_of (process_audio audio_data s) = Ok out -> playable out.
Proof.
  intros Hp Hu Hout. split; [eapply process_audio_stereo_block; eassumption|].
  revert Hout. destruct audio_data as [v|a]; cbn [unit_input] in Hu.
  - rewrite process_audio_1d_eq. cbn [outcome_of fst]. intros [= <-].
    unfold samples_within_unit. cbn [rows]. apply forallb_forall.
    intros r Hr. apply in_map_iff in Hr as (x & <- & Hx).
    rewrite Forall_forall in Hu. cbn [forallb].
    now rewrite (unit_sample_within x (Hu x Hx)).
  - rewrite Forall_forall in Hu. destruct (ncols a) as [|[|n]] eqn:Hc.
    + rewrite process_audio_zero_channels_eq by assumption. discriminate.
    + rewrite process_audio_one_channel_eq by assumption. cbn [outcome_of fst].
      intros [= <-]. unfold samples_within_unit. cbn [rows]. apply forallb_forall.
      intros o Ho. apply in_map_iff in Ho as (r & <- & Hr). cbn [forallb].
      now rewrite (unit_sample_within _ (row_get_unit 0 r (Hu r Hr))).
    + rewrite process_audio_stereo_eq by lia. cbn [outcome_of fst].
      intros [= <-]. apply stereo_rows_within_unit; [assumption|].
      unfold stereo_samples. apply Forall_forall. intros r Hr.
      split; apply unit_sample_bounded, row_get_unit, Hu, Hr.
Qed.

Section QueueInvariant.

Variable cap : nat.
Variable sr : Z.
Variable bs : nat.
Hypothesis cap_positive : (0 < cap)%nat.

(** [good]: what is required of a queued block; [input_ok]: what is
    assumed of a captured one. *)
Variable good : matrix -> Prop.
Variable input_ok : ndarray -> Prop.
Hypothesis process_audio_good :
  forall s audio_data out,
    params_in_range s = true -> input_ok audio_data ->
    outcome_of (process_audio audio_data s) = Ok out -> good out.
Hypothesis silence_good : forall n, good (np_zeros n 2).

Lemma handle_key_keeps_items (key : ascii) (s : processor) :
  Forall good (items (audio_queue s)) ->
  Forall good (items (audio_queue (state_of (handle_key key s)))).
Proof. now rewrite handle_key_audio_queue. Qed.

Lemma state_after_keeps_items (s : processor) (c : call) :
  session_inv cap sr bs s ->
  captured input_ok [c] ->
  Forall good (items (audio_queue s)) ->
  Forall good (items (audio_queue (state_after s c))).
Proof.
  intros (Hp & _) Hc Hq. apply Forall_inv in Hc.
  destruct c as [indata frames time status|outdata frames time status|poll|];
    cbn [state_after].
  - destruct (input_callback_items s indata frames time status) as [_ ->].
    apply Forall_app. split; [assumption|].
    destruct (outcome_of (process_audio (np_copy indata) s)) as [out| |] eqn:Ho;
      try constructor.
    destruct (queue_full (audio_queue s)); constructor; [|constructor].
    now apply (process_audio_good s (np_copy indata)).
  - rewrite output_callback_state.
    destruct (items (audio_queue s)) as [|d rest] eqn:Hi.
    + now rewrite Hi.
    + cbn [with_audio_queue audio_queue items]. now apply Forall_inv_tail in Hq.
  - apply (keyboard_listener_keeps
             (fun s => Forall good (items (audio_queue s))) handle_key_keeps_items).
    exact Hq.
  - pose proof (prologue_spec s) as H. cbv zeta in H. destruct H as (_ & -> & _).
    apply Forall_app. split; [assumption|].
    apply Forall_forall. intros x Hx. apply repeat_spec in Hx. subst x.
    apply silence_good.
Qed.

Lemma session_keeps_items (calls : list call) (s : processor) :
  session_inv cap sr bs s ->
  captured input_ok calls ->
  Forall good (items (audio_queue s)) ->
  Forall good (items (audio_queue (session calls s))).
Proof.
  revert s. induction calls as [|c calls IH]; intros s Hinv Hc Hq; [exact Hq|].
  cbn [session fold_left]. inversion Hc as [|? ? Hc1 Hcs]; subst.
  apply IH.
  - now apply state_after_keeps_inv.
  - exact Hcs.
  - apply state_after_keeps_items; [assumption| |assumption].
    constructor; [exact Hc1 | constructor].
Qed.

End QueueInvariant.

(** X17. Whatever calls are made on a processor after its construction,
    and whatever blocks are captured, the queue only ever holds well-formed
    blocks of exactly two channels: what [process_audio] returned, or the
    silence of the prefill. *)
Theorem session_queue_stereo (calls : list call) (sample_rate0 : Z) (block_size0 : nat) :
  Forall stereo_block
    (items (audio_queue (session calls (SmoothAudioProcessor sample_rate0 block_size0)))).
Proof.
  apply (session_keeps_items 20 sample_rate0 block_size0 ltac:(lia)
           stereo_block (fun _ => True)).
  - intros s audio_data out _ _. apply process_audio_stereo_block.
  - apply np_zeros_stereo_block.
  - repeat split. cbn. lia.
  - unfold captured. apply Forall_forall. intros c _. now destruct c.
  - constructor.
Qed.

(** X18. The limiter end to end: in a session in which every captured block
    holds only float32 samples of [[-1.0, 1.0]] (mono or with any number of
    channels), whatever keys are pressed in between, every block in the
    queue, hence every block [output_callback] plays, is a stereo block
    with all samples in [[-1.0, 1.0]]. *)
Theorem session_queue_playable (calls : list call) (sample_rate0 : Z) (block_size0 : nat) :
  captured unit_input calls ->
  Forall playable
    (items (audio_queue (session calls (SmoothAudioProcessor sample_rate0 block_size0)))).
Proof.
  intros Hc.
  apply (session_keeps_items 20 sample_rate0 block_size0 ltac:(lia) playable unit_input).
  - intros s audio_data out. apply process_audio_playable.
  - apply np_zeros_playable.
  - repeat split. cbn. lia.
  - exact Hc.
  - constructor.
Qed.

Lemma session_queue_playable_witness :
  Forall playable
    (items (audio_queue
       (session [CallPrologue;
                 CallKey (Some "6"%char);
                 CallInput (stereo_frame 1.0 (-1.0)) 1 0 false;
                 CallInput (Arr1 [f32_of_float 0.25]) 1 0 false]
          (SmoothAudioProcessor 44100 2048)))).
Proof.
  apply session_queue_playable.
  repeat constructor; vm_compute; reflexivity.
Defined.

(* ================================================================== *)
(** ** The choice of devices in main *)

Lemma first_index_some (cond : device -> bool) (devices : list device) :
  forall i k,
  first_index cond i devices = Some k ->
  (i <= k)%nat /\
  (exists dev, nth_error devices (k - i) = Some dev /\ cond dev = true) /\
  forall j dev, (j < k - i)%nat -> nth_error devices j = Some dev -> cond dev = false.
Proof.
  induction devices as [|d rest IH]; intros i k; cbn [first_index]; [discriminate|].
  destruct (cond d) eqn:Hd.
  - intros [= <-]. rewrite Nat.sub_diag. split; [lia|].
    split; [exists d; split; [reflexivity | assumption]|].
    intros j dev Hj. lia.
  - intros H. destruct (IH _ _ H) as (Hle & (dev & Hn & Hc) & Hbefore).
    split; [lia|]. replace (k - i)%nat with (S (k - S i)) by lia. split.
    + exists dev. split; assumption.
    + intros [|j] dev' Hj; cbn [nth_error].
      * now intros [= <-].
      * apply Hbefore. lia.
Qed.

Lemma first_index_none (cond : device -> bool) (devices : list device) :
  forall i,
  first_index cond i devices = None <-> forall dev, In dev devices -> cond dev = false.
Proof.
  induction devices as [|d rest IH]; intros i; cbn [first_index].
  - split; [intros _ dev []|reflexivity].
  - destruct (cond d) eqn:Hd.
    + split; [discriminate|]. intros H. rewrite (H d) in Hd by now left. discriminate.
    + rewrite IH. split.
      * intros H dev [<-|Hin]; auto.
      * intros H dev Hin. apply H. now right.
Qed.

Lemma output_devices_spec (devices : list device) :
  forall i n d,
  nth_error (output_devices i devices) n = Some d ->
  (i <= d)%nat /\
  (exists dev, nth_error devices (d - i) = Some dev /\ is_output dev = true) /\
  length (filter is_output (firstn (d - i) devices)) = n.
Proof.
  induction devices as [|dev rest IH]; intros i n d; cbn [output_devices].
  - destruct n; discriminate.
  - destruct (is_output dev) eqn:Hd.
    + destruct n as [|n]; cbn [nth_error].
      * intros [= <-]. rewrite Nat.sub_diag. split; [lia|].
        split; [exists dev; split; [reflexivity | assumption] | reflexivity].
      * intros H. destruct (IH _ _ _ H) as (Hle & (dev' & Hn & Ho) & Hcount).
        split; [lia|]. replace (d - i)%nat with (S (d - S i)) by lia.
        split; [exists dev'; split; assumption|].
        cbn [firstn filter]. rewrite Hd. cbn [length]. now f_equal.
    + intros H. destruct (IH _ _ _ H) as (Hle & (dev' & Hn & Ho) & Hcount).
      split; [lia|]. replace (d - i)%nat with (S (d - S i)) by lia.
      split; [exists dev'; split; assumption|]. cbn [firstn filter]. now rewrite Hd.
Qed.

(** X19. The input device [main] detects: the index of a device of at
    least two input channels whose name contains [CABLE Output] or
    [Stereo Mix].  A [CABLE Output] device is preferred wherever it stands
    in the list: if there is one, the first of them is taken, also when a
    [Stereo Mix] device comes before it.  No device is detected exactly
    when the list holds neither. *)
Theorem auto_detect_input_spec (devices : list device) :
  (forall i, auto_detect_input devices = Some i ->
     exists dev, nth_error devices i = Some dev /\
       (2 <= max_input_channels dev)%Z /\
       (str_in "CABLE Output" (name dev) = true \/
        str_in "Stereo Mix" (name dev) = true)) /\
  (forall j dev, nth_error devices j = Some dev ->
     is_input "CABLE Output" dev = true ->
     exists i dev', auto_detect_input devices = Some i /\ (i <= j)%nat /\
       nth_error devices i = Some dev' /\ is_input "CABLE Output" dev' = true) /\
  (auto_detect_input devices = None <->
   forall dev, In dev devices ->
     is_input "CABLE Output" dev = false /\ is_input "Stereo Mix" dev = false).
Proof.
  unfold auto_detect_input. split; [|split].
  - intros i. destruct (first_index (is_input "CABLE Output") 0 devices) as [k|] eqn:Hc.
    + intros [= <-]. destruct (first_index_some _ _ _ _ Hc) as (_ & (dev & Hn & Hd) & _).
      rewrite Nat.sub_0_r in Hn. exists dev. split; [assumption|].
      unfold is_input in Hd. apply andb_true_iff in Hd as [Hs Hch].
      apply Z.leb_le in Hch. auto.
    + intros Hs. destruct (first_index_some _ _ _ _ Hs) as (_ & (dev & Hn & Hd) & _).
      rewrite Nat.sub_0_r in Hn. exists dev. split; [assumption|].
      unfold is_input in Hd. apply andb_true_iff in Hd as [Hs' Hch].
      apply Z.leb_le in Hch. auto.
  - intros j dev Hn Hd.
    destruct (first_index (is_input "CABLE Output") 0 devices) as [k|] eqn:Hc.
    + destruct (first_index_some _ _ _ _ Hc) as (_ & (dev' & Hn' & Hd') & Hbefore).
      rewrite Nat.sub_0_r in Hn', Hbefore. exists k, dev'.
      repeat split; try assumption.
      destruct (Nat.le_gt_cases k j) as [|Hlt]; [assumption|].
      rewrite (Hbefore j dev Hlt Hn) in Hd. discriminate.
    + pose proof (proj1 (first_index_none _ _ _) Hc) as Hnone.
      apply nth_error_In in Hn. rewrite (Hnone dev Hn) in Hd. discriminate.
  - destruct (first_index (is_input "CABLE Output") 0 devices) as [k|] eqn:Hc.
    + split; [discriminate|]. intros H.
      destruct (first_index_some _ _ _ _ Hc) as (_ & (dev & Hn & Hd) & _).
      apply nth_error_In in Hn. destruct (H dev Hn) as [Hf _].
      rewrite Hf in Hd. discriminate.
    + pose proof (proj1 (first_index_none _ _ _) Hc) as Hnone.
      rewrite first_index_none. split.
      * intros H dev Hin. auto.
      * intros H dev Hin. now apply H.
Qed.

(** X20. The output device [main] selects.  A line of digits never reads
    a negative number, and then the selection neither raises [IndexError]
    nor waits; and when a device is selected it is the device listed
    under the number typed: an index into the device list, of a device of
    at least two output channels, with exactly that many such devices
    before it. *)
Theorem select_output_spec (devices : list device) (choice : answer) :
  (forall n, isdigit choice = true -> int_value choice = Some n -> (0 <= n)%Z) ->
  select_output devices choice <> Raise IndexError /\
  select_output devices choice <> Blocks /\
  forall d, select_output devices choice = Ok (Some d) ->
    exists n dev, int_value choice = Some n /\
      nth_error devices d = Some dev /\
      (2 <= max_output_channels dev)%Z /\
      Z.of_nat (length (filter is_output (firstn d devices))) = n.
Proof.
  intros Hsign. unfold select_output. cbv zeta.
  destruct (isdigit choice) eqn:Hdig; [|repeat split; discriminate].
  destruct (int_value choice) as [n|] eqn:Hint; [|repeat split; discriminate].
  specialize (Hsign n eq_refl eq_refl).
  destruct (Z.ltb_spec n (Z.of_nat (length (output_devices 0 devices)))) as [Hlt|Hge];
    [|repeat split; discriminate].
  unfold py_getitem. cbv zeta.
  destruct (Z.ltb_spec n 0) as [|_]; [lia|].
  destruct (Z.ltb_spec n 0) as [|_]; [lia|].
  destruct (nth_error (output_devices 0 devices) (Z.to_nat n)) as [d|] eqn:Hnth.
  - split; [discriminate|]. split; [discriminate|]. intros d' [= <-].
    destruct (output_devices_spec _ _ _ _ Hnth) as (_ & (dev & Hn & Ho) & Hcount).
    rewrite Nat.sub_0_r in Hn, Hcount. exists n, dev.
    repeat split; try assumption.
    + unfold is_output in Ho. now apply Z.leb_le in Ho.
    + rewrite Hcount. lia.
  - apply nth_error_None in Hnth. lia.
Qed.

Lemma select_output_spec_witness :
  select_output example_devices example_answer <> Raise IndexError /\
  select_output example_devices example_answer <> Blocks /\
  forall d, select_output example_devices example_answer = Ok (Some d) ->
    exists n dev, int_value example_answer = Some n /\
      nth_error example_devices d = Some dev /\
      (2 <= max_output_channels dev)%Z /\
      Z.of_nat (length (filter is_output (firstn d example_devices))) = n.
Proof.
  apply select_output_spec.
  intros n _ [= <-]. lia.
Defined.

(** On the example list the cable is detected although [Stereo Mix] comes
    first, and the answer [1] selects the second listed output. *)
Example main_choice_example :
  auto_detect_input example_devices = Some 2%nat /\
  select_output example_devices example_answer = Ok (Some 3%nat).
Proof. split; reflexivity. Qed.
